(** * Verification of penumbra's [pd] stateless transaction verifier and
    state writer (verify/stateless.rs, state/writer.rs). *)

From Stdlib Require Import ZArith.
From stdpp Require Import base gmap sets list strings.

(** ** pd/src/verify/stateless.rs *)
Module Stateless.

(** Hash-like values of the crypto crates (commitments, keys, signatures,
    proofs, nullifiers, roots) are opaque here: they are compared and
    passed to the crypto crates' verifiers, never inspected. *)
Definition Commitment := nat.
Definition Nullifier := nat.

(** [output.body] of an [Action::Output]. *)
Record Output := {
  out_proof : nat;
  out_value_commitment : nat;
  out_note_commitment : Commitment;
  out_ephemeral_key : nat;
  out_encrypted_note : list Byte.byte
}.

(** An [Action::Spend]: [spend.body] and [spend.auth_sig]. *)
Record Spend := {
  sp_rk : nat;
  sp_proof : nat;
  sp_value_commitment : nat;
  sp_nullifier : Nullifier;
  sp_auth_sig : nat
}.

(** [penumbra_transaction::Action]; [OtherAction] stands for the remaining
    variants, which [verify_stateless] matches with [_]. *)
Inductive Action :=
| Output_ (o : Output)
| Spend_ (s : Spend)
| Delegate (d : nat)
| Undelegate (u : nat)
| OtherAction.

Record TransactionBody := {
  actions : list Action;
  merkle_root : nat
}.

Record Transaction := {
  transaction_body : TransactionBody;
  binding_sig : nat
}.

(** The functions of the crypto and transaction crates that
    [verify_stateless] calls. *)
Record Crypto := {
  (** [self.id()] *)
  tx_id : Transaction -> nat;
  (** [body.sighash()] *)
  sighash : TransactionBody -> nat;
  (** [self.binding_verification_key()] *)
  binding_verification_key : Transaction -> nat;
  (** [vk.verify(&sighash, sig).is_ok()] *)
  binding_verify : nat -> nat -> nat -> bool;
  (** [rk.verify(&sighash, &auth_sig).is_ok()] *)
  rk_verify : nat -> nat -> nat -> bool;
  (** [proof.verify(value_commitment, note_commitment, ephemeral_key).is_ok()] *)
  output_proof_verify : nat -> nat -> Commitment -> nat -> bool;
  (** [proof.verify(merkle_root, value_commitment, nullifier, rk).is_ok()] *)
  spend_proof_verify : nat -> nat -> nat -> Nullifier -> nat -> bool
}.

(** The [anyhow] errors [verify_stateless] returns, one per return site. *)
Inductive VerifyError :=
| BindingSignatureInvalid     (* "binding signature failed to verify" *)
| SpendAuthSignatureInvalid   (* "spend auth signature failed to verify" *)
| OutputProofInvalid          (* "An output proof did not verify" *)
| SpendProofInvalid           (* "A spend proof did not verify" *)
| DoubleSpend                 (* "Double spend" *)
| UnsupportedAction.          (* "unsupported action" *)

Record NoteData := {
  ephemeral_key : nat;
  encrypted_note : list Byte.byte;
  transaction_id : nat
}.

(** [penumbra_stake::Validator], opaque here. *)
Definition Validator := nat.

Record PendingTransaction := {
  id : nat;
  root : nat;
  new_notes : gmap Commitment NoteData;
  spent_nullifiers : gset Nullifier;
  delegations : list nat;
  undelegations : list nat;
  validators : list Validator
}.

Section Verify.
Variable c : Crypto.

(** The local variables of the loop over the actions. *)
Definition LoopState : Type :=
  (gset Nullifier * gmap Commitment NoteData * list nat * list nat)%type.

(** [for action in self.transaction_body().actions { ... }], with the
    early returns of its body. *)
Fixpoint verify_actions (id sighash merkle_root : nat) (acts : list Action)
    (spent_nullifiers : gset Nullifier) (new_notes : gmap Commitment NoteData)
    (delegations undelegations : list nat) : VerifyError + LoopState :=
  match acts with
  | [] => inr (spent_nullifiers, new_notes, delegations, undelegations)
  | action :: rest =>
      match action with
      | Output_ o =>
          if negb (output_proof_verify c (out_proof o) (out_value_commitment o)
                     (out_note_commitment o) (out_ephemeral_key o))
          then inl OutputProofInvalid
          else verify_actions id sighash merkle_root rest spent_nullifiers
                 (<[out_note_commitment o :=
                     {| ephemeral_key := out_ephemeral_key o;
                        encrypted_note := out_encrypted_note o;
                        transaction_id := id |}]> new_notes)
                 delegations undelegations
      | Spend_ s =>
          if negb (rk_verify c (sp_rk s) sighash (sp_auth_sig s))
          then inl SpendAuthSignatureInvalid
          else if negb (spend_proof_verify c (sp_proof s) merkle_root
                          (sp_value_commitment s) (sp_nullifier s) (sp_rk s))
          then inl SpendProofInvalid
          else if bool_decide (sp_nullifier s ∈ spent_nullifiers)
          then inl DoubleSpend
          else verify_actions id sighash merkle_root rest
                 ({[sp_nullifier s]} ∪ spent_nullifiers) new_notes
                 delegations undelegations
      | Delegate d =>
          verify_actions id sighash merkle_root rest spent_nullifiers new_notes
            (delegations ++ [d]) undelegations
      | Undelegate u =>
          verify_actions id sighash merkle_root rest spent_nullifiers new_notes
            delegations (undelegations ++ [u])
      | OtherAction => inl UnsupportedAction
      end
  end.

(** [Transaction::verify_stateless]. *)
Definition verify_stateless (tx : Transaction) : VerifyError + PendingTransaction :=
  let id := tx_id c tx in
  let sighash := sighash c (transaction_body tx) in
  if negb (binding_verify c (binding_verification_key c tx) sighash (binding_sig tx))
  then inl BindingSignatureInvalid
  else
    let validators : list Validator := [] in
    match verify_actions id sighash (merkle_root (transaction_body tx))
            (actions (transaction_body tx)) ∅ ∅ [] [] with
    | inl e => inl e
    | inr (spent_nullifiers, new_notes, delegations, undelegations) =>
        inr {| id := id;
               root := merkle_root (transaction_body tx);
               new_notes := new_notes;
               spent_nullifiers := spent_nullifiers;
               delegations := delegations;
               undelegations := undelegations;
               validators := validators |}
    end.

End Verify.

(** The note commitments of a list's [Output] actions and the nullifiers
    of its [Spend] actions, in order. *)
Fixpoint output_commitments (acts : list Action) : list Commitment :=
  match acts with
  | [] => []
  | Output_ o :: rest => out_note_commitment o :: output_commitments rest
  | _ :: rest => output_commitments rest
  end.

Fixpoint spend_nullifiers (acts : list Action) : list Nullifier :=
  match acts with
  | [] => []
  | Spend_ s :: rest => sp_nullifier s :: spend_nullifiers rest
  | _ :: rest => spend_nullifiers rest
  end.

(** An action that passes its own checks in the loop: an [Output] whose
    proof verifies, a [Spend] whose auth signature and proof verify, a
    delegation or undelegation; never one of the unsupported variants. *)
Definition action_ok (c : Crypto) (sighash merkle_root : nat) (a : Action) : bool :=
  match a with
  | Output_ o =>
      output_proof_verify c (out_proof o) (out_value_commitment o)
        (out_note_commitment o) (out_ephemeral_key o)
  | Spend_ s =>
      rk_verify c (sp_rk s) sighash (sp_auth_sig s) &&
      spend_proof_verify c (sp_proof s) merkle_root (sp_value_commitment s)
        (sp_nullifier s) (sp_rk s)
  | Delegate _ | Undelegate _ => true
  | OtherAction => false
  end.

(** Crypto functions under which every signature and proof verifies. *)
Definition all_verify : Crypto := {|
  tx_id := fun _ => 7;
  sighash := fun _ => 11;
  binding_verification_key := fun _ => 13;
  binding_verify := fun _ _ _ => true;
  rk_verify := fun _ _ _ => true;
  output_proof_verify := fun _ _ _ _ => true;
  spend_proof_verify := fun _ _ _ _ _ => true
|}.

(** The same, except that the binding signature never verifies. *)
Definition bad_binding : Crypto := {|
  tx_id := fun _ => 7;
  sighash := fun _ => 11;
  binding_verification_key := fun _ => 13;
  binding_verify := fun _ _ _ => false;
  rk_verify := fun _ _ _ => true;
  output_proof_verify := fun _ _ _ _ => true;
  spend_proof_verify := fun _ _ _ _ _ => true
|}.

Definition spend_ex : Spend :=
  {| sp_rk := 1; sp_proof := 2; sp_value_commitment := 3; sp_nullifier := 42;
     sp_auth_sig := 5 |}.

Definition output_ex : Output :=
  {| out_proof := 1; out_value_commitment := 2; out_note_commitment := 99;
     out_ephemeral_key := 4; out_encrypted_note := [] |}.

Definition mk_tx (acts : list Action) : Transaction :=
  {| transaction_body := {| actions := acts; merkle_root := 17 |};
     binding_sig := 19 |}.

(** The payloads of a list's [Delegate] and [Undelegate] actions and its
    [Output] actions, in order. *)
Fixpoint delegate_payloads (acts : list Action) : list nat :=
  match acts with
  | [] => []
  | Delegate d :: rest => d :: delegate_payloads rest
  | _ :: rest => delegate_payloads rest
  end.

Fixpoint undelegate_payloads (acts : list Action) : list nat :=
  match acts with
  | [] => []
  | Undelegate u :: rest => u :: undelegate_payloads rest
  | _ :: rest => undelegate_payloads rest
  end.

Fixpoint outputs (acts : list Action) : list Output :=
  match acts with
  | [] => []
  | Output_ o :: rest => o :: outputs rest
  | _ :: rest => outputs rest
  end.

(** The last [Output] of a list with a given note commitment. *)
Definition last_output (acts : list Action) (cm : Commitment) : option Output :=
  last (List.filter (fun o => bool_decide (out_note_commitment o = cm)) (outputs acts)).

(** The [NoteData] the loop records for an output of transaction [id]. *)
Definition note_data_of (id : nat) (o : Output) : NoteData :=
  {| ephemeral_key := out_ephemeral_key o; encrypted_note := out_encrypted_note o;
     transaction_id := id |}.

(** An output with [output_ex]'s note commitment and other contents. *)
Definition output_ex2 : Output :=
  {| out_proof := 6; out_value_commitment := 7; out_note_commitment := 99;
     out_ephemeral_key := 8; out_encrypted_note := [Byte.x01] |}.

Definition tx_dup_out : Transaction :=
  mk_tx [Output_ output_ex; Undelegate 4; Output_ output_ex2; Delegate 3; Delegate 2].

Definition tx_out_spend : Transaction :=
  mk_tx [Output_ output_ex; Delegate 3; Spend_ spend_ex].

Definition tx_double : Transaction :=
  mk_tx [Output_ output_ex; Spend_ spend_ex; Delegate 1; Spend_ spend_ex].

End Stateless.

(** ** pd/src/state/writer.rs *)
Module Writer.

Definition bytes := list Byte.byte.
(** [merkle::Root] of the note commitment tree, the Jellyfish Merkle tree
    root (the app hash), identity keys, JMT nodes, asset ids: opaque. *)
Definition Root := nat.
Definition Hash := nat.
Definition IdentityKey := nat.
Definition Node := nat.
(** The note commitment tree, by its leaves; only the crypto crate's
    [root2] and [bincode::serialize] look inside it. *)
Definition NCT := list nat.
(** [ChainParams] is passed through unchanged. *)
Definition ChainParams := nat.

(** Rust's [x as i64] on an unsigned value: two's-complement wrap. *)
Definition as_i64 (z : Z) : Z :=
  let m := (z mod 2 ^ 64)%Z in
  if (2 ^ 63 <=? m)%Z then (m - 2 ^ 64)%Z else m.

Inductive ValidatorStateName := Active | Inactive | Unbonding | Slashed.

(** One row of a table of the relational store, tagged by its table. *)
Inductive Row :=
| RBlob (id : string) (data : bytes)
| RBaseRate (epoch base_reward_rate base_exchange_rate : Z)
| RValidator (identity_key : IdentityKey) (consensus_key : nat)
    (sequence_number : Z) (name website description : string)
    (voting_power : Z) (validator_state : ValidatorStateName)
    (unbonding_epoch : option Z)
| RFundingStream (identity_key : IdentityKey) (address : string) (rate_bps : Z)
| RValidatorRate (identity_key : IdentityKey)
    (epoch validator_reward_rate validator_exchange_rate : Z)
| RJmtNode (n : Node)
| RBlock (height : Z) (nct_anchor : Root) (app_hash : Hash)
| RNote (note_commitment : nat) (ephemeral_key : nat) (encrypted_note : bytes)
    (transaction_id : nat) (position height : Z)
| RNullifier (nullifier : nat) (height : Z)
| RDelegationChange (identity_key : IdentityKey) (epoch delta : Z)
| RAsset (asset_id : nat) (denom : string) (total_supply : Z).

Definition DB := list Row.

(** The SQL statements the writer issues. *)
Inductive Stmt :=
| Insert (r : Row)                        (* INSERT INTO ... VALUES ... *)
| UpsertBlob (id : string) (data : bytes) (* ... ON CONFLICT (id) DO UPDATE *)
| WriteNodeBatch (nodes : list Node)      (* jellyfish::DbTx::write_node_batch *)
| UpsertAsset (asset_id : nat) (denom : string) (total_supply : Z)
| UpdateVotingPower (voting_power : Z) (identity_key : IdentityKey).

Definition blob_id_is (id : string) (r : Row) : bool :=
  match r with RBlob id' _ => bool_decide (id' = id) | _ => false end.
Definition nullifier_is (nf : nat) (r : Row) : bool :=
  match r with RNullifier nf' _ => bool_decide (nf' = nf) | _ => false end.
Definition asset_id_is (a : nat) (r : Row) : bool :=
  match r with RAsset a' _ _ => bool_decide (a' = a) | _ => false end.

(** Modelled from the spec: the uniqueness constraints of the schema (the
    migrations are not in the sources): [blobs] is keyed by [id] and
    [nullifiers] has a uniqueness constraint on the nullifier. *)
Definition violates_unique (q : Stmt) (db : DB) : bool :=
  match q with
  | Insert (RBlob id _) => existsb (blob_id_is id) db
  | Insert (RNullifier nf _) => existsb (nullifier_is nf) db
  | _ => false
  end.

(** The effect of a statement that the database accepts. *)
Definition apply_stmt (q : Stmt) (db : DB) : DB :=
  match q with
  | Insert r => db ++ [r]
  | UpsertBlob id data =>
      if existsb (blob_id_is id) db
      then map (fun r => if blob_id_is id r then RBlob id data else r) db
      else db ++ [RBlob id data]
  | WriteNodeBatch nodes => db ++ map RJmtNode nodes
  | UpsertAsset a denom supply =>
      if existsb (asset_id_is a) db
      then map (fun r => if asset_id_is a r then RAsset a denom supply else r) db
      else db ++ [RAsset a denom supply]
  | UpdateVotingPower p ik =>
      map (fun r => match r with
                    | RValidator ik' ck sn n w d _ st ue =>
                        if bool_decide (ik' = ik) then RValidator ik' ck sn n w d p st ue
                        else r
                    | _ => r
                    end) db
  end.

Inductive DbError := UniqueViolation | OtherDbError.

Inductive Error :=
| Db (e : DbError)
| SerializeError
| JmtError.

(** The outcome of a call: a [Result], or a panic. *)
Inductive Outcome (A : Type) :=
| Ok (a : A)
| Err (e : Error)
| Panic (msg : string).
Arguments Ok {A} a.
Arguments Err {A} e.
Arguments Panic {A} msg.

(** [penumbra_stake::RateData], [BaseRateData], [ValidatorStatus], [Epoch]. *)
Record RateData := {
  rd_identity_key : IdentityKey;
  epoch_index : Z;
  validator_reward_rate : Z;
  validator_exchange_rate : Z
}.

Record BaseRateData := {
  br_epoch_index : Z;
  base_reward_rate : Z;
  base_exchange_rate : Z
}.

Record ValidatorStatus := {
  vs_identity_key : IdentityKey;
  voting_power : Z
}.

Record Epoch := { index : Z }.

Record PositionedNoteData := {
  position : Z;
  data : Stateless.NoteData
}.

(** [crate::PendingBlock]; its maps and sets are listed in their
    iteration order. *)
Record PendingBlock := {
  height : option Z;
  epoch : option Epoch;
  note_commitment_tree : NCT;
  notes : list (nat * PositionedNoteData);
  spent_nullifiers : list nat;
  delegation_changes : list (IdentityKey * Z);
  supply_updates : list (nat * (string * Z));
  next_base_rate : option BaseRateData;
  next_rates : option (list RateData);
  next_validator_statuses : option (list ValidatorStatus)
}.

(** [genesis::AppState]. *)
Record Validator := {
  identity_key : IdentityKey;
  consensus_key : nat;
  sequence_number : Z;
  name : string;
  website : string;
  description : string;
  funding_streams : list (string * Z)
}.

Record ValidatorPower := { validator : Validator; power : Z }.

Record AppState := {
  chain_params : ChainParams;
  validators : list ValidatorPower
}.

Abbreviation RateDataById := (gmap IdentityKey RateData).

Inductive Channel := ChainParamsCh | HeightCh | NextRateDataCh | ValidAnchorsCh.

Inductive Event :=
| Committed
| Sent (ch : Channel).

(** What the [Writer] owns: the committed store behind its pool, the
    values held by its watch channels, and the log of commits and sends. *)
Record World := {
  committed : DB;
  chain_params_ch : ChainParams;
  height_ch : Z;
  next_rate_data_ch : RateDataById;
  valid_anchors_ch : list Root;
  trace : list Event
}.

(** The code outside this repository's sources that the writer calls. *)
Record Env := {
  (** [self.pool.begin()] fails *)
  begin_fails : DB -> bool;
  (** the database rejects a statement for a reason other than the
      uniqueness constraints above (connection loss, other constraints) *)
  stmt_fails : Stmt -> DB -> bool;
  (** [dbtx.commit()] fails *)
  commit_fails : DB -> bool;
  root2 : NCT -> Root;
  (** [bincode::serialize] of the tree *)
  serialize_nct : NCT -> option bytes;
  (** [serde_json::to_vec] of the genesis config *)
  serialize_genesis : AppState -> option bytes;
  (** [JellyfishMerkleTree::new(&self.private_reader).put_value_set(..)]:
      the new root and node batch; it reads the committed store *)
  jmt_put_value_set : DB -> Root -> Z -> option (Hash * list Node)
}.

(** The writer's methods run in a state, error and panic monad. *)
Definition M (A : Type) : Type := World -> Outcome A * World.

#[global] Instance M_ret : MRet M := fun A a w => (Ok a, w).
#[global] Instance M_bind : MBind M := fun A B k m w =>
  match m w with
  | (Ok a, w') => k a w'
  | (Err e, w') => (Err e, w')
  | (Panic s, w') => (Panic s, w')
  end.

Definition fail {A} (e : Error) : M A := fun w => (Err e, w).
Definition panic {A} (msg : string) : M A := fun w => (Panic msg, w).

(** [opt.ok_or(e)?] and [opt.expect(msg)] / [opt.unwrap()]. *)
Definition of_option {A} (e : Error) (o : option A) : M A :=
  match o with Some a => mret a | None => fail e end.
Definition expect {A} (msg : string) (o : option A) : M A :=
  match o with Some a => mret a | None => panic msg end.

Section Ops.
Variable env : Env.

Definition begin : M DB := fun w =>
  if begin_fails env (committed w) then (Err (Db OtherDbError), w)
  else (Ok (committed w), w).

(** [query!(..).execute(&mut dbtx).await?] *)
Definition exec (q : Stmt) (dbtx : DB) : M DB := fun w =>
  if violates_unique q dbtx then (Err (Db UniqueViolation), w)
  else if stmt_fails env q dbtx then (Err (Db OtherDbError), w)
  else (Ok (apply_stmt q dbtx), w).

(** A [for] loop that executes one statement per element. *)
Fixpoint exec_each {A} (f : A -> Stmt) (xs : list A) (dbtx : DB) : M DB :=
  match xs with
  | [] => mret dbtx
  | x :: xs' => dbtx' ← exec (f x) dbtx; exec_each f xs' dbtx'
  end.

(** [dbtx.commit().await?] *)
Definition commit (dbtx : DB) : M unit := fun w =>
  if commit_fails env dbtx then (Err (Db OtherDbError), w)
  else (Ok tt, {| committed := dbtx; chain_params_ch := chain_params_ch w;
                  height_ch := height_ch w; next_rate_data_ch := next_rate_data_ch w;
                  valid_anchors_ch := valid_anchors_ch w;
                  trace := trace w ++ [Committed] |}).

Definition jmt_put (anchor : Root) (version : Z) : M (Hash * list Node) := fun w =>
  match jmt_put_value_set env (committed w) anchor version with
  | Some r => (Ok r, w)
  | None => (Err JmtError, w)
  end.

End Ops.

(** [self.valid_anchors_tx.borrow().clone()] *)
Definition borrow_anchors : M (list Root) := fun w => (Ok (valid_anchors_ch w), w).

(** [let _ = self.*_tx.send(v);] *)
Definition send_chain_params (v : ChainParams) : M unit := fun w =>
  (Ok tt, {| committed := committed w; chain_params_ch := v; height_ch := height_ch w;
             next_rate_data_ch := next_rate_data_ch w;
             valid_anchors_ch := valid_anchors_ch w;
             trace := trace w ++ [Sent ChainParamsCh] |}).
Definition send_height (v : Z) : M unit := fun w =>
  (Ok tt, {| committed := committed w; chain_params_ch := chain_params_ch w;
             height_ch := v; next_rate_data_ch := next_rate_data_ch w;
             valid_anchors_ch := valid_anchors_ch w;
             trace := trace w ++ [Sent HeightCh] |}).
Definition send_next_rate_data (v : RateDataById) : M unit := fun w =>
  (Ok tt, {| committed := committed w; chain_params_ch := chain_params_ch w;
             height_ch := height_ch w; next_rate_data_ch := v;
             valid_anchors_ch := valid_anchors_ch w;
             trace := trace w ++ [Sent NextRateDataCh] |}).
Definition send_valid_anchors (v : list Root) : M unit := fun w =>
  (Ok tt, {| committed := committed w; chain_params_ch := chain_params_ch w;
             height_ch := height_ch w; next_rate_data_ch := next_rate_data_ch w;
             valid_anchors_ch := v;
             trace := trace w ++ [Sent ValidAnchorsCh] |}).

(** Fixed-point 1.0 at scale 1e8. *)
Definition one_e8 : Z := 100000000.

(** [RateDataById] collected from an iterator: a later entry for a key
    replaces an earlier one. *)
Definition collect_rate_data (rates : list RateData) : RateDataById :=
  foldl (fun m rd => <[rd_identity_key rd := rd]> m) ∅ rates.

(** [block::Height::try_from(u64)]: heights above [i64::MAX] are refused. *)
Definition height_try_into (h : Z) : option Z :=
  if (h <? 2 ^ 63)%Z then Some h else None.

Section Methods.
Variable env : Env.
(** [crate::NUM_RECENT_ANCHORS] *)
Variable NUM_RECENT_ANCHORS : nat.

(** The body of the loop over [genesis_config.validators] in
    [commit_genesis]. *)
Fixpoint genesis_validators (vps : list ValidatorPower) (dbtx : DB)
    (next_rate_data : RateDataById) : M (DB * RateDataById) :=
  match vps with
  | [] => mret (dbtx, next_rate_data)
  | vp :: rest =>
      let v := validator vp in
      dbtx ← exec env (Insert (RValidator (identity_key v) (consensus_key v)
                (as_i64 (sequence_number v)) (name v) (website v) (description v)
                (as_i64 (power vp)) Active None)) dbtx;
      dbtx ← exec_each env (fun '(address, rate_bps) =>
                Insert (RFundingStream (identity_key v) address rate_bps))
              (funding_streams v) dbtx;
      dbtx ← exec_each env (fun epoch =>
                Insert (RValidatorRate (identity_key v) epoch 0 one_e8))
              [0%Z; 1%Z] dbtx;
      genesis_validators rest dbtx
        (<[identity_key v := {| rd_identity_key := identity_key v;
                                epoch_index := 1;
                                validator_reward_rate := 0;
                                validator_exchange_rate := one_e8 |}]> next_rate_data)
  end.

(** [Writer::commit_genesis]. *)
Definition commit_genesis (genesis_config : AppState) : M unit :=
  dbtx ← begin env;
  genesis_bytes ← of_option SerializeError (serialize_genesis env genesis_config);
  dbtx ← exec env (Insert (RBlob "gc"%string genesis_bytes)) dbtx;
  dbtx ← exec_each env (fun epoch => Insert (RBaseRate epoch 0 one_e8)) [0%Z; 1%Z] dbtx;
  '(dbtx, next_rate_data) ← genesis_validators (validators genesis_config) dbtx ∅;
  let chain_params := chain_params genesis_config in
  commit env dbtx;;
  send_chain_params chain_params;;
  send_next_rate_data next_rate_data.

(** The new value of the anchors window: [pop_back] when full, then
    [push_front]. *)
Definition update_anchors (nct_anchor : Root) (valid_anchors : list Root) : list Root :=
  nct_anchor :: (if Nat.leb NUM_RECENT_ANCHORS (length valid_anchors)
                 then List.removelast valid_anchors else valid_anchors).

(** The [if let (Some(base_rate_data), Some(rate_data))] block. *)
Definition insert_next_rates (block : PendingBlock) (dbtx : DB) : M DB :=
  match next_base_rate block, next_rates block with
  | Some base_rate_data, Some rate_data =>
      dbtx ← exec env (Insert (RBaseRate (as_i64 (br_epoch_index base_rate_data))
                (as_i64 (base_reward_rate base_rate_data))
                (as_i64 (base_exchange_rate base_rate_data)))) dbtx;
      exec_each env (fun rate =>
          Insert (RValidatorRate (rd_identity_key rate) (as_i64 (epoch_index rate))
                    (as_i64 (validator_reward_rate rate))
                    (as_i64 (validator_exchange_rate rate))))
        rate_data dbtx
  | _, _ => mret dbtx
  end.

(** The [if let Some(validator_statuses)] block. *)
Definition update_voting_powers (block : PendingBlock) (dbtx : DB) : M DB :=
  match next_validator_statuses block with
  | Some validator_statuses =>
      exec_each env (fun status =>
          UpdateVotingPower (as_i64 (voting_power status)) (vs_identity_key status))
        validator_statuses dbtx
  | None => mret dbtx
  end.

(** [Writer::commit_block]; returns the app hash. *)
Definition commit_block (block : PendingBlock) : M Hash :=
  dbtx ← begin env;
  let nct_anchor := root2 env (note_commitment_tree block) in
  nct_bytes ← of_option SerializeError (serialize_nct env (note_commitment_tree block));
  dbtx ← exec env (UpsertBlob "nct"%string nct_bytes) dbtx;
  height ← expect "height must be set"%string (height block);
  '(jmt_root, node_batch) ← jmt_put env nct_anchor height;
  dbtx ← exec env (WriteNodeBatch node_batch) dbtx;
  let app_hash := jmt_root in
  dbtx ← exec env (Insert (RBlock (as_i64 height) nct_anchor app_hash)) dbtx;
  dbtx ← exec_each env (fun '(note_commitment, positioned_note) =>
            Insert (RNote note_commitment
                      (Stateless.ephemeral_key (data positioned_note))
                      (Stateless.encrypted_note (data positioned_note))
                      (Stateless.transaction_id (data positioned_note))
                      (as_i64 (position positioned_note)) (as_i64 height)))
          (notes block) dbtx;
  dbtx ← exec_each env (fun nullifier => Insert (RNullifier nullifier (as_i64 height)))
          (spent_nullifiers block) dbtx;
  epoch ← expect "called `Option::unwrap()` on a `None` value"%string (epoch block);
  let epoch_index := index epoch in
  dbtx ← exec_each env (fun '(identity_key, delegation_change) =>
            Insert (RDelegationChange identity_key (as_i64 epoch_index) delegation_change))
          (delegation_changes block) dbtx;
  dbtx ← exec_each env (fun '(id, (denom, supply)) => UpsertAsset id denom (as_i64 supply))
          (supply_updates block) dbtx;
  dbtx ← insert_next_rates block dbtx;
  dbtx ← update_voting_powers block dbtx;
  valid_anchors ← borrow_anchors;
  let valid_anchors := update_anchors nct_anchor valid_anchors in
  let next_rate_data := option_map collect_rate_data (next_rates block) in
  commit env dbtx;;
  h ← expect "called `Result::unwrap()` on an `Err` value"%string (height_try_into height);
  send_height h;;
  send_valid_anchors valid_anchors;;
  (match next_rate_data with
   | Some next_rate_data => send_next_rate_data next_rate_data
   | None => mret tt
   end);;
  mret app_hash.

End Methods.

(** [state::Reader]'s queries that [init_caches] runs against the
    committed store; the reader is not part of these sources. *)
Record Reader := {
  reader_genesis_configuration : DB -> option AppState;
  reader_height : DB -> option Z;
  reader_next_rate_data : DB -> option RateDataById;
  reader_recent_anchors : nat -> DB -> option (list Root)
}.

(** [self.private_reader.<query>().await?] *)
Definition query {A} (q : DB -> option A) : M A := fun w =>
  match q (committed w) with
  | Some a => (Ok a, w)
  | None => (Err (Db OtherDbError), w)
  end.

Section Caches.
Variable private_reader : Reader.
(** [crate::NUM_RECENT_ANCHORS] *)
Variable NUM_RECENT_ANCHORS : nat.

(** [Writer::init_caches]. *)
Definition init_caches : M unit :=
  chain_params ← query (fun db =>
    option_map chain_params (reader_genesis_configuration private_reader db));
  height ← query (reader_height private_reader);
  next_rate_data ← query (reader_next_rate_data private_reader);
  valid_anchors ← query (reader_recent_anchors private_reader NUM_RECENT_ANCHORS);
  send_chain_params chain_params;;
  send_height height;;
  send_next_rate_data next_rate_data;;
  send_valid_anchors valid_anchors;;
  mret tt.

End Caches.

(** Statements run in order against a database transaction, as [exec]
    accepts them: [None] at the first uniqueness violation. *)
Fixpoint run_stmts (qs : list Stmt) (db : DB) : option DB :=
  match qs with
  | [] => Some db
  | q :: qs' => if violates_unique q db then None else run_stmts qs' (apply_stmt q db)
  end.

(** The statements a successful [commit_block] executes, in order. *)
Definition block_stmts (nct_anchor : Root) (nct_bytes : bytes) (height : Z)
    (app_hash : Hash) (node_batch : list Node) (epoch_idx : Z)
    (block : PendingBlock) : list Stmt :=
  [UpsertBlob "nct"%string nct_bytes; WriteNodeBatch node_batch;
   Insert (RBlock (as_i64 height) nct_anchor app_hash)] ++
  map (fun '(note_commitment, positioned_note) =>
         Insert (RNote note_commitment
                   (Stateless.ephemeral_key (data positioned_note))
                   (Stateless.encrypted_note (data positioned_note))
                   (Stateless.transaction_id (data positioned_note))
                   (as_i64 (position positioned_note)) (as_i64 height)))
      (notes block) ++
  map (fun nullifier => Insert (RNullifier nullifier (as_i64 height)))
      (spent_nullifiers block) ++
  map (fun '(identity_key, delegation_change) =>
         Insert (RDelegationChange identity_key (as_i64 epoch_idx) delegation_change))
      (delegation_changes block) ++
  map (fun '(id, (denom, supply)) => UpsertAsset id denom (as_i64 supply))
      (supply_updates block) ++
  match next_base_rate block, next_rates block with
  | Some base_rate_data, Some rate_data =>
      Insert (RBaseRate (as_i64 (br_epoch_index base_rate_data))
                (as_i64 (base_reward_rate base_rate_data))
                (as_i64 (base_exchange_rate base_rate_data))) ::
      map (fun rate =>
          Insert (RValidatorRate (rd_identity_key rate) (as_i64 (epoch_index rate))
                    (as_i64 (validator_reward_rate rate))
                    (as_i64 (validator_exchange_rate rate))))
        rate_data
  | _, _ => []
  end ++
  match next_validator_statuses block with
  | Some validator_statuses =>
      map (fun status =>
          UpdateVotingPower (as_i64 (voting_power status)) (vs_identity_key status))
        validator_statuses
  | None => []
  end.

(** The rows a list of statements inserts with [INSERT]. *)
Definition inserted_rows (qs : list Stmt) : list Row :=
  flat_map (fun q => match q with Insert r => [r] | _ => [] end) qs.

(** A statement that changes the rows selected by [p] only by inserting. *)
Definition stmt_keeps (p : Row -> bool) (q : Stmt) : Prop :=
  match q with
  | Insert _ => True
  | UpsertBlob id _ => forall d, p (RBlob id d) = false
  | WriteNodeBatch ns => Forall (fun n => p (RJmtNode n) = false) ns
  | UpsertAsset a _ _ => forall d s, p (RAsset a d s) = false
  | UpdateVotingPower _ ik =>
      forall ck sn n ws d pw st ue, p (RValidator ik ck sn n ws d pw st ue) = false
  end.

(** Rows of the [blocks], [notes], [nullifiers], [delegation_changes] and
    [validators] tables. *)
Definition is_block_row (r : Row) : bool :=
  match r with RBlock _ _ _ => true | _ => false end.
Definition is_note_row (r : Row) : bool :=
  match r with RNote _ _ _ _ _ _ => true | _ => false end.
Definition is_nullifier_row (r : Row) : bool :=
  match r with RNullifier _ _ => true | _ => false end.
Definition is_delegation_change_row (r : Row) : bool :=
  match r with RDelegationChange _ _ _ => true | _ => false end.
Definition is_validator_row (r : Row) : bool :=
  match r with RValidator _ _ _ _ _ _ _ _ _ => true | _ => false end.

(** The rows [commit_block] inserts for a note, a nullifier and a
    delegation change. *)
Definition note_row (height : Z) (n : nat * PositionedNoteData) : Row :=
  RNote n.1 (Stateless.ephemeral_key (data n.2)) (Stateless.encrypted_note (data n.2))
    (Stateless.transaction_id (data n.2)) (as_i64 (position n.2)) (as_i64 height).
Definition nullifier_row (height : Z) (nf : nat) : Row := RNullifier nf (as_i64 height).
Definition delegation_change_row (epoch_index : Z) (dc : IdentityKey * Z) : Row :=
  RDelegationChange dc.1 (as_i64 epoch_index) dc.2.

(** The last voting power a list of statuses gives an identity key, the
    last supply update of an asset, the last rate data of an identity key. *)
Definition last_power (sts : list ValidatorStatus) (ik : IdentityKey) : option Z :=
  last (map (fun s => as_i64 (voting_power s))
          (List.filter (fun s => bool_decide (vs_identity_key s = ik)) sts)).
Definition last_supply (ups : list (nat * (string * Z))) (a : nat) : option (string * Z) :=
  last (map snd (List.filter (fun u => bool_decide (u.1 = a)) ups)).
Definition last_rate (rates : list RateData) (ik : IdentityKey) : option RateData :=
  last (List.filter (fun rd => bool_decide (rd_identity_key rd = ik)) rates).

(** A validators row with the voting power of the last status for its key. *)
Definition set_last_power (sts : list ValidatorStatus) (r : Row) : Row :=
  match r with
  | RValidator ik ck sn n ws d pw st ue =>
      RValidator ik ck sn n ws d (default pw (last_power sts ik)) st ue
  | _ => r
  end.

(** A database and crypto environment where nothing fails. *)
Definition healthy_env : Env := {|
  begin_fails := fun _ => false;
  stmt_fails := fun _ _ => false;
  commit_fails := fun _ => false;
  root2 := fun t => 1000 + length t;
  serialize_nct := fun _ => Some [];
  serialize_genesis := fun _ => Some [];
  jmt_put_value_set := fun _ anchor _ => Some (anchor + 1, [anchor])
|}.

Definition world0 : World := {|
  committed := [];
  chain_params_ch := 0;
  height_ch := 0;
  next_rate_data_ch := ∅;
  valid_anchors_ch := [];
  trace := []
|}.

Definition note_ex : PositionedNoteData :=
  {| position := 0;
     data := {| Stateless.ephemeral_key := 4; Stateless.encrypted_note := [];
                Stateless.transaction_id := 7 |} |}.

Definition rate_ex (ik : IdentityKey) : RateData :=
  {| rd_identity_key := ik; epoch_index := 2; validator_reward_rate := 5;
     validator_exchange_rate := one_e8 |}.

Definition block_ex (h : Z) : PendingBlock := {|
  height := Some h;
  epoch := Some {| index := 1 |};
  note_commitment_tree := [1; 2; 3];
  notes := [(99, note_ex)];
  spent_nullifiers := [42];
  delegation_changes := [(5, 10%Z)];
  supply_updates := [];
  next_base_rate := Some {| br_epoch_index := 2; base_reward_rate := 3;
                            base_exchange_rate := one_e8 |};
  next_rates := Some [rate_ex 5];
  next_validator_statuses := None
|}.

Definition genesis_ex : AppState := {|
  chain_params := 3;
  validators := [{| validator := {| identity_key := 5; consensus_key := 6;
                                    sequence_number := 0; name := "v1"%string;
                                    website := ""%string; description := ""%string;
                                    funding_streams := [("addr"%string, 500%Z)] |};
                    power := 1000 |}]
|}.

(** A computation that leaves the writer's state untouched, whatever its
    outcome. *)
Definition read_only {A} (m : M A) : Prop := forall w, snd (m w) = w.

(** Rows of the [base_rates] and [validator_rates] tables. *)
Definition is_rate_row (r : Row) : bool :=
  match r with RBaseRate _ _ _ | RValidatorRate _ _ _ _ => true | _ => false end.

Definition anchors_world : World := {|
  committed := []; chain_params_ch := 0; height_ch := 0;
  next_rate_data_ch := ∅; valid_anchors_ch := [7; 8]; trace := [] |}.

(** Statements other than an insert into a rate table. *)
Definition not_rate_stmt (q : Stmt) : Prop :=
  match q with Insert r => is_rate_row r = false | _ => True end.

(** The rows [commit_block] adds to the rate tables. *)
Definition base_rate_row (br : BaseRateData) : Row :=
  RBaseRate (as_i64 (br_epoch_index br)) (as_i64 (base_reward_rate br))
    (as_i64 (base_exchange_rate br)).
Definition validator_rate_row (rate : RateData) : Row :=
  RValidatorRate (rd_identity_key rate) (as_i64 (epoch_index rate))
    (as_i64 (validator_reward_rate rate)) (as_i64 (validator_exchange_rate rate)).

Definition genesis_ids (vps : list ValidatorPower) : list IdentityKey :=
  map (fun vp => identity_key (validator vp)) vps.



(** A block with several notes, nullifiers, delegation changes, supply
    updates (asset 8 twice), rates and voting-power statuses (validator 5
    twice). *)
Definition block_full : PendingBlock := {|
  height := Some 2%Z;
  epoch := Some {| index := 1 |};
  note_commitment_tree := [1; 2; 3; 4];
  notes := [(99, note_ex); (98, note_ex)];
  spent_nullifiers := [42; 43];
  delegation_changes := [(5, 10%Z); (5, (-3)%Z)];
  supply_updates := [(8, ("upenumbra"%string, 5%Z)); (9, ("gm"%string, 1%Z));
                     (8, ("upenumbra"%string, 7%Z))];
  next_base_rate := Some {| br_epoch_index := 2; base_reward_rate := 3;
                            base_exchange_rate := one_e8 |};
  next_rates := Some [rate_ex 5; rate_ex 6; rate_ex 5];
  next_validator_statuses := Some [{| vs_identity_key := 5; voting_power := 10 |};
                                   {| vs_identity_key := 5; voting_power := 20 |}]
|}.

(** The state [commit_genesis] leaves from [genesis_ex] on an empty store. *)
Definition genesis_world : World := snd (commit_genesis healthy_env genesis_ex world0).

(** A predicate that selects no blob, JMT node, asset or validator row. *)
Definition insert_only (p : Row -> bool) : Prop :=
  (forall id d, p (RBlob id d) = false) /\ (forall n, p (RJmtNode n) = false) /\
  (forall a d s, p (RAsset a d s) = false) /\
  (forall ik ck sn n ws d pw st ue, p (RValidator ik ck sn n ws d pw st ue) = false).

(** The rows [commit_genesis] inserts for a genesis validator. *)
Definition genesis_validator_rows (vp : ValidatorPower) : list Row :=
  let v := validator vp in
  RValidator (identity_key v) (consensus_key v) (as_i64 (sequence_number v)) (name v)
    (website v) (description v) (as_i64 (power vp)) Active None ::
  map (fun '(address, rate_bps) => RFundingStream (identity_key v) address rate_bps)
    (funding_streams v) ++
  [RValidatorRate (identity_key v) 0 0 one_e8; RValidatorRate (identity_key v) 1 0 one_e8].

(** A reader over any store. *)
Definition reader_ex : Reader := {|
  reader_genesis_configuration := fun _ => Some genesis_ex;
  reader_height := fun _ => Some 4%Z;
  reader_next_rate_data := fun _ => Some ∅;
  reader_recent_anchors := fun n _ => Some (repeat 0 n)
|}.

End Writer.

(** ** Properties of [verify_stateless] *)
Module StatelessProofs.
Import Stateless.

Section Loop.
Variable c : Crypto.
Variables (txid sh mr : nat).

Lemma verify_actions_app (l1 l2 : list Action) sp nn d u :
  verify_actions c txid sh mr (l1 ++ l2) sp nn d u =
  match verify_actions c txid sh mr l1 sp nn d u with
  | inl e => inl e
  | inr (sp', nn', d', u') => verify_actions c txid sh mr l2 sp' nn' d' u'
  end.
Proof.
  revert sp nn d u; induction l1 as [|a l1 IH]; intros sp nn d u; [reflexivity|].
  destruct a as [o|s|x|x|]; simpl; try apply IH.
  - destruct (output_proof_verify _ _ _ _ _); simpl; [apply IH|reflexivity].
  - destruct (rk_verify _ _ _ _); simpl; [|reflexivity].
    destruct (spend_proof_verify _ _ _ _ _ _); simpl; [|reflexivity].
    case_bool_decide; [reflexivity|apply IH].
  - reflexivity.
Qed.

(** On success, the loop adds exactly the outputs' commitments to the
    notes' keys and the spends' nullifiers to the nullifier set. *)
Lemma verify_actions_sets (acts : list Action) :
  forall (sp : gset Nullifier) (nn : gmap Commitment NoteData) d u sp' nn' d' u',
  verify_actions c txid sh mr acts sp nn d u = inr (sp', nn', d', u') ->
  dom nn' = dom nn ∪ list_to_set (output_commitments acts) /\
  sp' = sp ∪ list_to_set (spend_nullifiers acts).
Proof.
  induction acts as [|a acts IH]; intros sp nn d u sp' nn' d' u' H; simpl in H.
  - injection H as <- <- <- <-. simpl. split; set_solver.
  - destruct a as [o|s|x|x|]; simpl.
    + destruct (output_proof_verify _ _ _ _ _); simpl in H; [|discriminate].
      apply IH in H as [H1 H2]. rewrite dom_insert_L in H1. split; set_solver.
    + destruct (rk_verify _ _ _ _); simpl in H; [|discriminate].
      destruct (spend_proof_verify _ _ _ _ _ _); simpl in H; [|discriminate].
      case_bool_decide; [discriminate|].
      apply IH in H as [H1 H2]. split; set_solver.
    + apply IH in H; exact H.
    + apply IH in H; exact H.
    + discriminate.
Qed.

(** On success, the spends' nullifiers are pairwise distinct and none was
    in the initial set. *)
Lemma verify_actions_nodup (acts : list Action) :
  forall (sp : gset Nullifier) nn d u r,
  verify_actions c txid sh mr acts sp nn d u = inr r ->
  NoDup (spend_nullifiers acts) /\
  (forall x, x ∈ spend_nullifiers acts -> x ∉ sp).
Proof.
  induction acts as [|a acts IH]; intros sp nn d u r H; simpl in H.
  - split; [constructor|]. intros x Hx. inversion Hx.
  - destruct a as [o|s|x|x|]; simpl.
    + destruct (output_proof_verify _ _ _ _ _); simpl in H; [|discriminate].
      eapply IH; exact H.
    + destruct (rk_verify _ _ _ _); simpl in H; [|discriminate].
      destruct (spend_proof_verify _ _ _ _ _ _); simpl in H; [|discriminate].
      case_bool_decide as Hin; [discriminate|].
      apply IH in H as [Hnd Hfresh]. split.
      * constructor; [|exact Hnd].
        intros Hx. apply (Hfresh _ Hx). set_solver.
      * intros x Hx. apply elem_of_cons in Hx as [->|Hx]; [exact Hin|].
        specialize (Hfresh x Hx). set_solver.
    + eapply IH; exact H.
    + eapply IH; exact H.
    + discriminate.
Qed.

(** A run of actions that each pass their own checks either stops at a
    repeated nullifier or adds all the spends' nullifiers. *)
Lemma verify_actions_good (l : list Action) :
  Forall (fun a => action_ok c sh mr a = true) l ->
  forall (sp : gset Nullifier) nn d u,
  verify_actions c txid sh mr l sp nn d u = inl DoubleSpend \/
  exists nn' d' u', verify_actions c txid sh mr l sp nn d u =
                    inr (sp ∪ list_to_set (spend_nullifiers l), nn', d', u').
Proof.
  induction 1 as [|a l Ha Hl IH]; intros sp nn d u.
  - right. simpl. exists nn, d, u.
    replace (sp ∪ ∅) with sp by set_solver. reflexivity.
  - destruct a as [o|s|x|x|]; simpl in Ha |- *.
    + rewrite Ha. simpl.
      match goal with
      | |- context [verify_actions _ _ _ _ l sp ?nn2 d u] =>
          destruct (IH sp nn2 d u) as [H|(nn' & d' & u' & H)];
          [left; exact H|right; eauto]
      end.
    + apply andb_true_iff in Ha as [Ha1 Ha2]. rewrite Ha1, Ha2. simpl.
      case_bool_decide; [left; reflexivity|].
      destruct (IH ({[sp_nullifier s]} ∪ sp) nn d u) as [H'|(nn' & d' & u' & H')];
        [left; exact H'|right].
      exists nn', d', u'. rewrite H'.
      replace ({[sp_nullifier s]} ∪ sp ∪ list_to_set (spend_nullifiers l))
        with (sp ∪ ({[sp_nullifier s]} ∪ list_to_set (spend_nullifiers l)))
        by set_solver.
      reflexivity.
    + apply IH.
    + apply IH.
    + discriminate.
Qed.

End Loop.

Ltac unfold_verify_stateless H :=
  unfold verify_stateless in H;
  destruct (binding_verify _ _ _ _); simpl in H; [|discriminate];
  let E := fresh "E" in
  destruct (verify_actions _ _ _ _ _ _ _ _ _) as [?|[[[? ?] ?] ?]] eqn:E;
  [discriminate|injection H as <-].

(** C2: when [verify_stateless] succeeds, the keys of [new_notes] are
    exactly the note commitments of the transaction's [Output] actions and
    [spent_nullifiers] is exactly the set of its [Spend] actions'
    nullifiers. *)
Theorem verify_stateless_notes_nullifiers (c : Crypto) (tx : Transaction)
    (pt : PendingTransaction) :
  verify_stateless c tx = inr pt ->
  dom (new_notes pt) = list_to_set (output_commitments (actions (transaction_body tx))) /\
  spent_nullifiers pt = list_to_set (spend_nullifiers (actions (transaction_body tx))).
Proof.
  intros H. unfold_verify_stateless H. simpl.
  apply verify_actions_sets in E as [H1 H2].
  rewrite H1, H2, dom_empty_L. split; set_solver.
Qed.

Lemma verify_stateless_notes_nullifiers_witness :
  exists pt, verify_stateless all_verify tx_out_spend = inr pt /\
  dom (new_notes pt) = list_to_set (output_commitments (actions (transaction_body tx_out_spend))) /\
  spent_nullifiers pt = list_to_set (spend_nullifiers (actions (transaction_body tx_out_spend))).
Proof.
  eexists. split; [reflexivity|].
  apply (verify_stateless_notes_nullifiers all_verify tx_out_spend). reflexivity.
Defined.

(** C3 (counterexample): a transaction with two spends of one nullifier,
    whose binding signature, spend-auth signatures and spend proofs all
    verify, is rejected with the unsupported-action error, not the
    double-spend error, when an unsupported action comes first. *)
Lemma double_spend_masked_by_unsupported :
  let tx := mk_tx [OtherAction; Spend_ spend_ex; Spend_ spend_ex] in
  binding_verify all_verify (binding_verification_key all_verify tx)
    (sighash all_verify (transaction_body tx)) (binding_sig tx) = true /\
  Forall (fun a => match a with Spend_ _ => action_ok all_verify
                     (sighash all_verify (transaction_body tx)) 17 a = true
                   | _ => True end) (actions (transaction_body tx)) /\
  verify_stateless all_verify tx = inl UnsupportedAction /\
  verify_stateless all_verify tx <> inl DoubleSpend.
Proof.
  simpl. split; [reflexivity|]. split; [repeat constructor|].
  split; [reflexivity|]. discriminate.
Qed.

(** C3 (amended): a transaction with two [Spend] actions with the same
    nullifier never yields a [PendingTransaction]; if its binding signature
    verifies and every action up to the second of those spends passes its
    own checks (spend-auth signatures and spend proofs verify, output proofs
    verify, no unsupported action), the error is the double-spend error. *)
Theorem verify_stateless_double_spend (c : Crypto) (tx : Transaction)
    (pre mid post : list Action) (s1 s2 : Spend) :
  actions (transaction_body tx) = pre ++ Spend_ s1 :: mid ++ Spend_ s2 :: post ->
  sp_nullifier s1 = sp_nullifier s2 ->
  (forall pt, verify_stateless c tx <> inr pt) /\
  (binding_verify c (binding_verification_key c tx)
     (sighash c (transaction_body tx)) (binding_sig tx) = true ->
   Forall (fun a => action_ok c (sighash c (transaction_body tx))
                      (merkle_root (transaction_body tx)) a = true)
     (pre ++ Spend_ s1 :: mid ++ [Spend_ s2]) ->
   verify_stateless c tx = inl DoubleSpend).
Proof.
  intros Hacts Hnf. split.
  - intros pt H. unfold_verify_stateless H.
    apply verify_actions_nodup in E as [Hnd _].
    rewrite Hacts in Hnd.
    assert (Hsplit : forall l1 l2, spend_nullifiers (l1 ++ l2) =
                     spend_nullifiers l1 ++ spend_nullifiers l2).
    { induction l1 as [|a l1 IH]; intros l2; [reflexivity|].
      destruct a; simpl; rewrite ?IH; reflexivity. }
    rewrite Hsplit in Hnd. simpl in Hnd. rewrite Hsplit in Hnd. simpl in Hnd.
    apply NoDup_app in Hnd as (_ & _ & Hnd).
    apply NoDup_cons in Hnd as [Hnot _]. apply Hnot.
    rewrite Hnf. apply elem_of_app. right. apply elem_of_cons. left. reflexivity.
  - intros Hb Hok. unfold verify_stateless. rewrite Hb. simpl.
    rewrite Hacts.
    apply Forall_app in Hok as [Hpre Hok].
    apply Forall_cons in Hok as [Hs1 Hok].
    apply Forall_app in Hok as [Hmid Hok].
    apply Forall_cons in Hok as [Hs2 _].
    rewrite verify_actions_app.
    destruct (verify_actions_good c (tx_id c tx) _ _ pre Hpre ∅ ∅ [] [])
      as [->|(nn1 & d1 & u1 & ->)]; [reflexivity|].
    simpl in Hs1 |- *. apply andb_true_iff in Hs1 as [Ha1 Ha2].
    rewrite Ha1, Ha2. simpl.
    case_bool_decide; [reflexivity|].
    rewrite verify_actions_app.
    destruct (verify_actions_good c (tx_id c tx) _ _ mid Hmid
                ({[sp_nullifier s1]} ∪ (∅ ∪ list_to_set (spend_nullifiers pre)))
                nn1 d1 u1)
      as [->|(nn2 & d2 & u2 & ->)]; [reflexivity|].
    simpl in Hs2 |- *. apply andb_true_iff in Hs2 as [Hb1 Hb2].
    rewrite Hb1, Hb2. simpl.
    rewrite bool_decide_eq_true_2; [reflexivity|].
    rewrite <- Hnf. set_solver.
Qed.

Lemma verify_stateless_double_spend_witness :
  (forall pt, verify_stateless all_verify tx_double <> inr pt) /\
  verify_stateless all_verify tx_double = inl DoubleSpend.
Proof.
  pose proof (verify_stateless_double_spend all_verify tx_double
    [Output_ output_ex] [Delegate 1] [] spend_ex spend_ex eq_refl eq_refl)
    as [H1 H2].
  split; [exact H1|]. apply H2; [reflexivity|]. repeat constructor.
Defined.

(** C7: when the binding signature does not verify against the sighash,
    [verify_stateless] fails with the binding-signature error, whatever
    the actions are, and produces no [PendingTransaction]. *)
Theorem verify_stateless_binding_first (c : Crypto) (tx : Transaction) :
  binding_verify c (binding_verification_key c tx)
    (sighash c (transaction_body tx)) (binding_sig tx) = false ->
  verify_stateless c tx = inl BindingSignatureInvalid /\
  (forall pt, verify_stateless c tx <> inr pt).
Proof.
  intros Hb. unfold verify_stateless. rewrite Hb. simpl.
  split; [reflexivity|]. discriminate.
Qed.

Lemma verify_stateless_binding_first_witness :
  verify_stateless bad_binding tx_double = inl BindingSignatureInvalid /\
  (forall pt, verify_stateless bad_binding tx_double <> inr pt).
Proof. apply verify_stateless_binding_first. reflexivity. Defined.

(** C9: when [verify_stateless] succeeds, the [validators] field of the
    returned [PendingTransaction] is the empty list. *)
Theorem verify_stateless_no_validators (c : Crypto) (tx : Transaction)
    (pt : PendingTransaction) :
  verify_stateless c tx = inr pt -> validators pt = [].
Proof. intros H. unfold_verify_stateless H. reflexivity. Qed.

Lemma verify_stateless_no_validators_witness :
  exists pt, verify_stateless all_verify tx_out_spend = inr pt /\ validators pt = [].
Proof.
  eexists. split; [reflexivity|].
  apply (verify_stateless_no_validators all_verify tx_out_spend). reflexivity.
Defined.

(** ** Further properties of [verify_stateless] *)

Section Loop2.
Variable c : Crypto.
Variables (txid sh mr : nat).

Lemma last_output_cons_output o rest cm :
  last_output (Output_ o :: rest) cm =
  match last_output rest cm with
  | Some o' => Some o'
  | None => if bool_decide (out_note_commitment o = cm) then Some o else None
  end.
Proof.
  unfold last_output. simpl. case_bool_decide; simpl.
  - rewrite last_cons. reflexivity.
  - destruct (last _); reflexivity.
Qed.

(** On success, the loop appends the delegations and undelegations in
    order and records, for each commitment, the last output with it. *)
Lemma verify_actions_contents (acts : list Action) :
  forall (sp : gset Nullifier) (nn : gmap Commitment NoteData) d u sp' nn' d' u',
  verify_actions c txid sh mr acts sp nn d u = inr (sp', nn', d', u') ->
  d' = d ++ delegate_payloads acts /\ u' = u ++ undelegate_payloads acts /\
  forall cm, nn' !! cm = match last_output acts cm with
                         | Some o => Some (note_data_of txid o)
                         | None => nn !! cm
                         end.
Proof.
  induction acts as [|a acts IH]; intros sp nn d u sp' nn' d' u' H; simpl in H.
  - injection H as <- <- <- <-. rewrite !app_nil_r. auto.
  - destruct a as [o|s|x|x|].
    + destruct (output_proof_verify _ _ _ _ _); simpl in H; [|discriminate].
      apply IH in H as (Hd & Hu & Hn). split; [exact Hd|split; [exact Hu|]].
      intros cm. rewrite Hn, last_output_cons_output.
      destruct (last_output acts cm); [reflexivity|].
      case_bool_decide as Heq.
      * subst cm. rewrite lookup_insert_eq. reflexivity.
      * rewrite lookup_insert_ne by congruence. reflexivity.
    + destruct (rk_verify _ _ _ _); simpl in H; [|discriminate].
      destruct (spend_proof_verify _ _ _ _ _ _); simpl in H; [|discriminate].
      case_bool_decide; [discriminate|].
      apply IH in H as (Hd & Hu & Hn). auto.
    + apply IH in H as (Hd & Hu & Hn). simpl. rewrite <- app_assoc in Hd. auto.
    + apply IH in H as (Hd & Hu & Hn). simpl. rewrite <- app_assoc in Hu. auto.
    + discriminate.
Qed.

(** The loop succeeds exactly when every action passes its own checks and
    the spends' nullifiers are pairwise distinct and new. *)
Lemma verify_actions_ok_iff (acts : list Action) :
  forall (sp : gset Nullifier) nn d u,
  (exists r, verify_actions c txid sh mr acts sp nn d u = inr r) <->
  Forall (fun a => action_ok c sh mr a = true) acts /\
  NoDup (spend_nullifiers acts) /\
  (forall x, x ∈ spend_nullifiers acts -> x ∉ sp).
Proof.
  induction acts as [|a acts IH]; intros sp nn d u; simpl.
  - split; [intros _|intros _; eauto].
    split; [constructor|split; [constructor|intros x Hx; inversion Hx]].
  - destruct a as [o|s|x|x|]; simpl.
    + destruct (output_proof_verify _ _ _ _ _) eqn:Ho; simpl.
      * rewrite IH. split.
        -- intros (H1 & H2 & H3). split; [constructor; [exact Ho|exact H1]|auto].
        -- intros (H1 & H2 & H3). apply Forall_cons in H1 as [_ H1]. auto.
      * split; [intros [r Hr]; discriminate|].
        intros (H1 & _). apply Forall_cons in H1 as [H1 _]. simpl in H1.
        rewrite Ho in H1. discriminate.
    + destruct (rk_verify _ _ _ _) eqn:Hr; simpl;
        [|split; [intros [r' Hr']; discriminate|];
          intros (H1 & _); apply Forall_cons in H1 as [H1 _]; simpl in H1;
          rewrite Hr in H1; discriminate].
      destruct (spend_proof_verify _ _ _ _ _ _) eqn:Hp; simpl;
        [|split; [intros [r' Hr']; discriminate|];
          intros (H1 & _); apply Forall_cons in H1 as [H1 _]; simpl in H1;
          rewrite Hr, Hp in H1; discriminate].
      case_bool_decide as Hin.
      * split; [intros [r' Hr']; discriminate|].
        intros (_ & _ & H3). exfalso. apply (H3 (sp_nullifier s)); [left|exact Hin].
      * rewrite IH. split.
        -- intros (H1 & H2 & H3). split; [constructor; [simpl; rewrite Hr, Hp; reflexivity|exact H1]|].
           split.
           ++ constructor; [|exact H2]. intros Hx. apply (H3 _ Hx). set_solver.
           ++ intros x Hx. apply elem_of_cons in Hx as [->|Hx]; [exact Hin|].
              specialize (H3 x Hx). set_solver.
        -- intros (H1 & H2 & H3). apply Forall_cons in H1 as [_ H1].
           apply NoDup_cons in H2 as [H2a H2b].
           split; [exact H1|split; [exact H2b|]].
           intros x Hx Hsp. apply elem_of_union in Hsp as [Hs|Hs].
           ++ apply elem_of_singleton in Hs. subst x. contradiction.
           ++ apply (H3 x); [right; exact Hx|exact Hs].
    + rewrite IH. split.
      * intros (H1 & H2 & H3). split; [constructor; [reflexivity|exact H1]|auto].
      * intros (H1 & H2 & H3). apply Forall_cons in H1 as [_ H1]. auto.
    + rewrite IH. split.
      * intros (H1 & H2 & H3). split; [constructor; [reflexivity|exact H1]|auto].
      * intros (H1 & H2 & H3). apply Forall_cons in H1 as [_ H1]. auto.
    + split; [intros [r Hr]; discriminate|].
      intros (H1 & _). apply Forall_cons in H1 as [H1 _]. discriminate.
Qed.

End Loop2.

(** X1: [verify_stateless] succeeds exactly when the binding signature
    verifies, every action passes its own checks (output proofs, spend-auth
    signatures and spend proofs verify, no unsupported action) and no
    nullifier is spent twice in the transaction. *)
Theorem verify_stateless_succeeds_iff (c : Crypto) (tx : Transaction) :
  (exists pt, verify_stateless c tx = inr pt) <->
  binding_verify c (binding_verification_key c tx)
    (sighash c (transaction_body tx)) (binding_sig tx) = true /\
  Forall (fun a => action_ok c (sighash c (transaction_body tx))
                     (merkle_root (transaction_body tx)) a = true)
    (actions (transaction_body tx)) /\
  NoDup (spend_nullifiers (actions (transaction_body tx))).
Proof.
  unfold verify_stateless.
  destruct (binding_verify _ _ _ _) eqn:Hb; simpl.
  - pose proof (verify_actions_ok_iff c (tx_id c tx) (sighash c (transaction_body tx))
      (merkle_root (transaction_body tx)) (actions (transaction_body tx)) ∅ ∅ [] [])
      as Hiff.
    destruct (verify_actions _ _ _ _ _ _ _ _ _) as [e|[[[sp nn] d] u]].
    + split.
      * intros [pt Hpt]; discriminate.
      * intros (_ & H1 & H2). destruct (proj2 Hiff (conj H1 (conj H2 (fun x _ => not_elem_of_empty x)))) as [r Hr].
        discriminate.
    + split.
      * intros _. destruct (proj1 Hiff (ex_intro _ _ eq_refl)) as (H1 & H2 & _). auto.
      * intros _. eexists. reflexivity.
  - split; [intros [pt Hpt]; discriminate|intros (H & _); discriminate].
Qed.

(** X2: when [verify_stateless] succeeds, [delegations] and [undelegations]
    list the transaction's [Delegate] and [Undelegate] actions in their
    order, and for each note commitment [new_notes] holds the data of the
    last [Output] with that commitment, tagged with the transaction id. *)
Theorem verify_stateless_contents (c : Crypto) (tx : Transaction)
    (pt : PendingTransaction) :
  verify_stateless c tx = inr pt ->
  id pt = tx_id c tx /\ root pt = merkle_root (transaction_body tx) /\
  delegations pt = delegate_payloads (actions (transaction_body tx)) /\
  undelegations pt = undelegate_payloads (actions (transaction_body tx)) /\
  forall cm, new_notes pt !! cm =
    option_map (note_data_of (tx_id c tx)) (last_output (actions (transaction_body tx)) cm).
Proof.
  intros H. unfold_verify_stateless H. simpl.
  apply verify_actions_contents in E as (Hd & Hu & Hn).
  split; [reflexivity|split; [reflexivity|]].
  split; [exact Hd|split; [exact Hu|]].
  intros cm. rewrite Hn. destruct (last_output _ cm); reflexivity.
Qed.

Lemma verify_stateless_contents_witness :
  exists pt, verify_stateless all_verify tx_dup_out = inr pt /\
  (id pt = 7 /\ root pt = 17 /\ delegations pt = [3; 2] /\ undelegations pt = [4] /\
   forall cm, new_notes pt !! cm =
     option_map (note_data_of 7) (last_output (actions (transaction_body tx_dup_out)) cm)).
Proof.
  eexists. split; [reflexivity|].
  apply (verify_stateless_contents all_verify tx_dup_out). reflexivity.
Defined.

End StatelessProofs.

(** ** Properties of [commit_genesis] and [commit_block] *)
Module WriterProofs.
Import Writer.

Create HintDb ro.

Lemma bind_ro {A B} (m : M A) (k : A -> M B) (w : World) :
  read_only m ->
  (m ≫= k) w = match fst (m w) with
               | Ok a => k a w
               | Err e => (Err e, w)
               | Panic s => (Panic s, w)
               end.
Proof.
  intros Hro. unfold mbind, M_bind. specialize (Hro w).
  destruct (m w) as [o w']. simpl in Hro. subst w'. destruct o; reflexivity.
Qed.

Lemma ro_ret {A} (a : A) : read_only (mret a).
Proof. intros w. reflexivity. Qed.

Lemma ro_bind {A B} (m : M A) (k : A -> M B) :
  read_only m -> (forall a, read_only (k a)) -> read_only (m ≫= k).
Proof.
  intros Hm Hk w. rewrite (bind_ro m k w Hm). destruct (fst (m w)); [apply Hk|reflexivity..].
Qed.

Lemma ro_begin env : read_only (begin env).
Proof. intros w. unfold begin. destruct (begin_fails _ _); reflexivity. Qed.

Lemma ro_exec env q dbtx : read_only (exec env q dbtx).
Proof.
  intros w. unfold exec.
  destruct (violates_unique _ _); [reflexivity|]. destruct (stmt_fails _ _ _); reflexivity.
Qed.

Lemma ro_exec_each {A} env (f : A -> Stmt) xs dbtx : read_only (exec_each env f xs dbtx).
Proof.
  revert dbtx; induction xs as [|x xs IH]; intros dbtx; simpl.
  - apply ro_ret.
  - apply ro_bind; [apply ro_exec|exact IH].
Qed.

Lemma ro_of_option {A} e (o : option A) : read_only (of_option e o).
Proof. intros w. destruct o; reflexivity. Qed.

Lemma ro_expect {A} msg (o : option A) : read_only (expect msg o).
Proof. intros w. destruct o; reflexivity. Qed.

Lemma ro_jmt_put env a v : read_only (jmt_put env a v).
Proof. intros w. unfold jmt_put. destruct (jmt_put_value_set _ _ _ _); reflexivity. Qed.

Lemma ro_borrow_anchors : read_only borrow_anchors.
Proof. intros w. reflexivity. Qed.

Lemma ro_insert_next_rates env block dbtx : read_only (insert_next_rates env block dbtx).
Proof.
  unfold insert_next_rates.
  destruct (next_base_rate block), (next_rates block);
    try apply ro_ret.
  apply ro_bind; [apply ro_exec|intros; apply ro_exec_each].
Qed.

Lemma ro_update_voting_powers env block dbtx :
  read_only (update_voting_powers env block dbtx).
Proof.
  unfold update_voting_powers. destruct (next_validator_statuses block);
    [apply ro_exec_each|apply ro_ret].
Qed.

Lemma ro_genesis_validators env vps dbtx nrd :
  read_only (genesis_validators env vps dbtx nrd).
Proof.
  revert dbtx nrd; induction vps as [|vp vps IH]; intros dbtx nrd;
    cbn [genesis_validators].
  - apply ro_ret.
  - repeat (apply ro_bind; [first [apply ro_exec|apply ro_exec_each]|intros]).
    apply IH.
Qed.

#[export] Hint Resolve ro_ret ro_begin ro_exec ro_exec_each ro_of_option ro_expect
  ro_jmt_put ro_borrow_anchors ro_insert_next_rates ro_update_voting_powers
  ro_genesis_validators : ro.

Lemma bind_commit {B} env dbtx (k : unit -> M B) (w : World) :
  (commit env dbtx ≫= k) w =
  if commit_fails env dbtx then (Err (Db OtherDbError), w)
  else k tt {| committed := dbtx; chain_params_ch := chain_params_ch w;
               height_ch := height_ch w; next_rate_data_ch := next_rate_data_ch w;
               valid_anchors_ch := valid_anchors_ch w;
               trace := trace w ++ [Committed] |}.
Proof. unfold mbind, M_bind, commit. destruct (commit_fails _ _); reflexivity. Qed.

(** One step of symbolic execution through a read-only computation. *)
Ltac step_ro :=
  match goal with
  | |- context [ @mbind _ _ ?A ?B ?k ?m ?w ] =>
      rewrite (bind_ro m k w) by (eauto with ro);
      let E := fresh "E" in
      destruct (fst (m w)) eqn:E; cbv beta iota zeta
  end.

(** Destructs the pairs bound by [' (a, b) <- m; k]. *)
Ltac split_pairs :=
  repeat match goal with
  | |- context [match ?p with (_, _) => _ end] => is_var p; destruct p
  end.

Ltac run_ro := repeat (step_ro; split_pairs).

(** The sends after a successful commit in [commit_block]. *)
Ltac run_sends :=
  unfold mbind, M_bind, mret, M_ret, expect, panic,
    send_height, send_valid_anchors, send_next_rate_data; simpl.

Lemma bind_ok_inv {A B} (m : M A) (k : A -> M B) (w : World) (b : B) :
  read_only m -> fst ((m ≫= k) w) = Ok b ->
  exists a, fst (m w) = Ok a /\ fst (k a w) = Ok b.
Proof.
  intros Hro. rewrite (bind_ro m k w Hro).
  destruct (fst (m w)) as [a| |]; [eauto|discriminate..].
Qed.

Lemma begin_ok env w a : fst (begin env w) = Ok a -> a = committed w.
Proof. unfold begin. destruct (begin_fails _ _); simpl; congruence. Qed.

Lemma exec_ok env q dbtx w dbtx' :
  fst (exec env q dbtx w) = Ok dbtx' ->
  dbtx' = apply_stmt q dbtx /\ violates_unique q dbtx = false.
Proof.
  unfold exec. destruct (violates_unique _ _); simpl; [discriminate|].
  destruct (stmt_fails _ _ _); simpl; [discriminate|]. intros H; injection H as <-; auto.
Qed.

Lemma exec_each_ok {A} env (f : A -> Stmt) xs dbtx w dbtx' :
  fst (exec_each env f xs dbtx w) = Ok dbtx' ->
  dbtx' = fold_left (fun db x => apply_stmt (f x) db) xs dbtx.
Proof.
  revert dbtx; induction xs as [|x xs IH]; intros dbtx H; simpl in H |- *.
  - injection H as <-. reflexivity.
  - apply bind_ok_inv in H as (a & Ha & Hk); [|apply ro_exec].
    apply exec_ok in Ha as [-> _]. apply IH in Hk. exact Hk.
Qed.

Lemma fold_apply_inserts {A} (g : A -> Row) xs dbtx :
  fold_left (fun db x => apply_stmt (Insert (g x)) db) xs dbtx = dbtx ++ map g xs.
Proof.
  revert dbtx; induction xs as [|x xs IH]; intros dbtx; simpl.
  - rewrite app_nil_r. reflexivity.
  - rewrite IH, <- app_assoc. reflexivity.
Qed.

(** C1: whatever [commit_block] meets, an error leaves the committed store
    and every snapshot channel exactly as they were; and the writer's state
    either does not change at all, or changes by one commit of the
    database transaction followed only by channel sends. *)
Theorem commit_block_atomic (env : Env) (N : nat) (block : PendingBlock) (w : World) :
  let '(o, w') := commit_block env N block w in
  (forall e, o = Err e -> w' = w) /\
  (w' = w \/ exists sends : list Channel,
      trace w' = trace w ++ Committed :: map Sent sends).
Proof.
  unfold commit_block. cbv beta zeta. run_ro.
  all: try (split; [intros; reflexivity|left; reflexivity]).
  rewrite bind_commit. destruct (commit_fails _ _) eqn:Ec.
  { split; [intros; reflexivity|left; reflexivity]. }
  destruct (height_try_into _) as [h'|]; run_sends.
  - destruct (option_map collect_rate_data (next_rates block)); simpl.
    + split; [intros; discriminate|right].
      exists [HeightCh; ValidAnchorsCh; NextRateDataCh].
      rewrite <- !app_assoc. reflexivity.
    + split; [intros; discriminate|right]. exists [HeightCh; ValidAnchorsCh].
      rewrite <- !app_assoc. reflexivity.
  - split; [intros; discriminate|right]. exists []. reflexivity.
Qed.

Lemma length_removelast {A} (l : list A) : length (List.removelast l) = length l - 1.
Proof.
  induction l as [|x l IH]; [reflexivity|].
  destruct l as [|y l]; [reflexivity|].
  change (length (List.removelast (x :: y :: l))) with (S (length (List.removelast (y :: l)))).
  rewrite IH. simpl. lia.
Qed.

Lemma update_anchors_window N r (va : list Root) :
  0 < N -> length va <= N ->
  length (update_anchors N r va) <= N /\
  update_anchors N r va =
    r :: (if Nat.eqb (length va) N then List.removelast va else va).
Proof.
  intros HN Hlen. unfold update_anchors.
  destruct (Nat.leb_spec N (length va)) as [Hle|Hlt].
  - assert (length va = N) as Heq by lia.
    rewrite (proj2 (Nat.eqb_eq _ _) Heq).
    split; [simpl; rewrite length_removelast; lia|reflexivity].
  - rewrite (proj2 (Nat.eqb_neq (length va) N)) by lia.
    split; [simpl; lia|reflexivity].
Qed.

(** C4: with a bound [NUM_RECENT_ANCHORS] of at least one and a window
    within it, after [commit_block] the window is still within the bound;
    when the call succeeds the window's front is the root of the block's
    note commitment tree, and if the window was full its oldest (tail)
    entry was dropped, otherwise nothing was. *)
Theorem commit_block_anchors_window (env : Env) (N : nat) (block : PendingBlock)
    (w : World) :
  0 < N -> length (valid_anchors_ch w) <= N ->
  let '(o, w') := commit_block env N block w in
  length (valid_anchors_ch w') <= N /\
  (forall h, o = Ok h ->
   valid_anchors_ch w' =
     root2 env (note_commitment_tree block) ::
       (if Nat.eqb (length (valid_anchors_ch w)) N
        then List.removelast (valid_anchors_ch w) else valid_anchors_ch w)).
Proof.
  intros HN Hlen. unfold commit_block. cbv beta zeta. run_ro.
  all: try (split; [exact Hlen|intros ? Hok; discriminate]).
  match goal with E : fst (borrow_anchors _) = Ok _ |- _ =>
    cbn in E; injection E as <- end.
  rewrite bind_commit. destruct (commit_fails _ _).
  { split; [exact Hlen|intros ? Hok; discriminate]. }
  destruct (update_anchors_window N (root2 env (note_commitment_tree block))
              (valid_anchors_ch w) HN Hlen) as [Hb Heq].
  destruct (height_try_into _) as [h'|]; run_sends.
  - destruct (option_map collect_rate_data (next_rates block)); simpl;
      (split; [exact Hb|intros; exact Heq]).
  - split; [exact Hlen|intros ? Hok; discriminate].
Qed.

Lemma commit_block_anchors_window_witness :
  commit_block healthy_env 2 (block_ex 1) anchors_world =
    (Ok 1004, {| committed := committed (snd (commit_block healthy_env 2 (block_ex 1)
                                               anchors_world));
                 chain_params_ch := 0; height_ch := 1;
                 next_rate_data_ch := collect_rate_data [rate_ex 5];
                 valid_anchors_ch := [1003; 7];
                 trace := [Committed; Sent HeightCh; Sent ValidAnchorsCh;
                           Sent NextRateDataCh] |}) /\
  (length [1003; 7] <= 2 /\
   (forall h, Ok 1004 = Ok h ->
    [1003; 7] = root2 healthy_env (note_commitment_tree (block_ex 1)) ::
      (if Nat.eqb (length (valid_anchors_ch anchors_world)) 2
       then List.removelast (valid_anchors_ch anchors_world)
       else valid_anchors_ch anchors_world))).
Proof.
  pose proof (commit_block_anchors_window healthy_env 2 (block_ex 1) anchors_world)
    as H.
  assert (Hrun : commit_block healthy_env 2 (block_ex 1) anchors_world =
    (Ok 1004, {| committed := committed (snd (commit_block healthy_env 2 (block_ex 1)
                                               anchors_world));
                 chain_params_ch := 0; height_ch := 1;
                 next_rate_data_ch := collect_rate_data [rate_ex 5];
                 valid_anchors_ch := [1003; 7];
                 trace := [Committed; Sent HeightCh; Sent ValidAnchorsCh;
                           Sent NextRateDataCh] |})) by reflexivity.
  split; [exact Hrun|].
  rewrite Hrun in H. apply H; simpl; lia.
Defined.

(** A computation that never panics. *)
Lemma exec_no_panic env q dbtx w s : fst (exec env q dbtx w) <> Panic s.
Proof.
  unfold exec. destruct (violates_unique _ _); [discriminate|].
  destruct (stmt_fails _ _ _); discriminate.
Qed.

Lemma exec_each_no_panic {A} env (f : A -> Stmt) xs dbtx w s :
  fst (exec_each env f xs dbtx w) <> Panic s.
Proof.
  revert dbtx; induction xs as [|x xs IH]; intros dbtx; simpl; [discriminate|].
  rewrite (bind_ro _ _ _ (ro_exec _ _ _)).
  pose proof (fun s' => exec_no_panic env (f x) dbtx w s') as Hnp.
  destruct (fst (exec env (f x) dbtx w)); [apply IH|discriminate|].
  intros _. eapply Hnp. reflexivity.
Qed.

Lemma begin_no_panic env w s : fst (begin env w) <> Panic s.
Proof. unfold begin. destruct (begin_fails _ _); discriminate. Qed.

Lemma of_option_no_panic {A} e (o : option A) w s : fst (of_option e o w) <> Panic s.
Proof. destruct o; discriminate. Qed.









(** ** The rate tables *)

Lemma filter_rate_map (g : Row -> Row) (db : DB) :
  (forall r, is_rate_row (g r) = is_rate_row r) ->
  (forall r, is_rate_row r = true -> g r = r) ->
  List.filter is_rate_row (map g db) = List.filter is_rate_row db.
Proof.
  intros Hg Hid. induction db as [|r db IH]; [reflexivity|]. simpl.
  rewrite Hg. destruct (is_rate_row r) eqn:Hr; [rewrite Hid by exact Hr|]; rewrite IH; reflexivity.
Qed.

Lemma filter_rate_all (rows : list Row) :
  Forall (fun r => is_rate_row r = true) rows ->
  List.filter is_rate_row rows = rows.
Proof. induction 1 as [|r rows Hr _ IH]; [reflexivity|]. simpl. rewrite Hr, IH. reflexivity. Qed.

Lemma apply_stmt_rate_rows q db :
  not_rate_stmt q ->
  List.filter is_rate_row (apply_stmt q db) = List.filter is_rate_row db.
Proof.
  intros Hq. destruct q as [r|id data|nodes|a denom supply|p ik]; simpl in Hq |- *.
  - rewrite List.filter_app. simpl. rewrite Hq, app_nil_r. reflexivity.
  - destruct (existsb (blob_id_is id) db).
    + apply filter_rate_map.
      * intros r. destruct (blob_id_is id r) eqn:Hb; [|reflexivity].
        destruct r; try discriminate; reflexivity.
      * intros r Hr. destruct r; try discriminate; reflexivity.
    + rewrite List.filter_app. simpl. rewrite app_nil_r. reflexivity.
  - rewrite List.filter_app.
    assert (Hn : List.filter is_rate_row (map RJmtNode nodes) = []).
    { induction nodes as [|n nodes IH]; [reflexivity|]. exact IH. }
    rewrite Hn, app_nil_r. reflexivity.
  - destruct (existsb (asset_id_is a) db).
    + apply filter_rate_map.
      * intros r. destruct (asset_id_is a r) eqn:Hb; [|reflexivity].
        destruct r; try discriminate; reflexivity.
      * intros r Hr. destruct r; try discriminate; reflexivity.
    + rewrite List.filter_app. simpl. rewrite app_nil_r. reflexivity.
  - apply filter_rate_map.
    + intros r. destruct r; try reflexivity.
      destruct (bool_decide _); reflexivity.
    + intros r Hr. destruct r; try discriminate; reflexivity.
Qed.

Lemma fold_apply_rate_rows {A} (f : A -> Stmt) xs db :
  (forall x, not_rate_stmt (f x)) ->
  List.filter is_rate_row (fold_left (fun db x => apply_stmt (f x) db) xs db) =
  List.filter is_rate_row db.
Proof.
  intros Hf. revert db; induction xs as [|x xs IH]; intros db; [reflexivity|].
  simpl. rewrite IH. apply apply_stmt_rate_rows, Hf.
Qed.

Lemma insert_next_rates_ok env block dbtx w dbtx' :
  fst (insert_next_rates env block dbtx w) = Ok dbtx' ->
  List.filter is_rate_row dbtx' =
  List.filter is_rate_row dbtx ++
    match next_base_rate block, next_rates block with
    | Some br, Some rd => base_rate_row br :: map validator_rate_row rd
    | _, _ => []
    end.
Proof.
  unfold insert_next_rates.
  destruct (next_base_rate block) as [br|], (next_rates block) as [rd|];
    try (simpl; intros H; injection H as <-; rewrite app_nil_r; reflexivity).
  intros H. apply bind_ok_inv in H as (a & Ha & Hk); [|apply ro_exec].
  apply exec_ok in Ha as [-> _]. apply exec_each_ok in Hk as ->.
  rewrite (fold_apply_inserts validator_rate_row). simpl.
  rewrite !List.filter_app. simpl. rewrite <- app_assoc. simpl.
  rewrite (filter_rate_all (map validator_rate_row rd)); [reflexivity|].
  apply Forall_forall. intros r Hr. apply list_elem_of_In, in_map_iff in Hr as (x & <- & _).
  reflexivity.
Qed.

Lemma update_voting_powers_ok env block dbtx w dbtx' :
  fst (update_voting_powers env block dbtx w) = Ok dbtx' ->
  List.filter is_rate_row dbtx' = List.filter is_rate_row dbtx.
Proof.
  unfold update_voting_powers. destruct (next_validator_statuses block).
  - intros H. apply exec_each_ok in H as ->. apply fold_apply_rate_rows. intros; exact I.
  - simpl. intros H. injection H as <-. reflexivity.
Qed.

(** C8: a successful [commit_block] adds to the [base_rates] and
    [validator_rates] tables exactly one base-rate row and one row per
    validator rate, with their epoch indices, when the block carries both
    the next base rate and the next validator rates, and adds no row to
    these tables otherwise. *)
Theorem commit_block_rate_rows (env : Env) (N : nat) (block : PendingBlock)
    (w w' : World) (h : Hash) :
  commit_block env N block w = (Ok h, w') ->
  List.filter is_rate_row (committed w') =
  List.filter is_rate_row (committed w) ++
    match next_base_rate block, next_rates block with
    | Some br, Some rd => base_rate_row br :: map validator_rate_row rd
    | _, _ => []
    end.
Proof.
  unfold commit_block. cbv beta zeta. run_ro.
  all: try (intros H; discriminate).
  rewrite bind_commit. destruct (commit_fails _ _); [intros H; discriminate|].
  destruct (height_try_into _) as [h'|]; run_sends; [|intros H; discriminate].
  intros H.
  assert (Hc : committed w' = a11)
    by (destruct (option_map collect_rate_data (next_rates block));
        simpl in H; injection H as _ <-; reflexivity).
  rewrite Hc.
  repeat match goal with
  | E : fst (begin _ _) = Ok _ |- _ => apply begin_ok in E; subst
  | E : fst (exec _ _ _ _) = Ok _ |- _ => apply exec_ok in E as [E _]; subst
  | E : fst (exec_each _ _ _ _ _) = Ok _ |- _ => apply exec_each_ok in E; subst
  | E : fst (update_voting_powers _ _ _ _) = Ok _ |- _ =>
      apply update_voting_powers_ok in E; rewrite E; clear E
  | E : fst (insert_next_rates _ _ _ _) = Ok _ |- _ =>
      apply insert_next_rates_ok in E; rewrite E; clear E
  end.
  f_equal.
  rewrite !fold_apply_rate_rows
    by (intros x; repeat match goal with p : prod _ _ |- _ => destruct p end;
        simpl; first [exact I|reflexivity]).
  rewrite !apply_stmt_rate_rows by (simpl; first [exact I|reflexivity]).
  reflexivity.
Qed.

Lemma commit_block_rate_rows_witness :
  commit_block healthy_env 2 (block_ex 1) world0 =
    (Ok 1004, snd (commit_block healthy_env 2 (block_ex 1) world0)) /\
  List.filter is_rate_row (committed (snd (commit_block healthy_env 2 (block_ex 1) world0))) =
  List.filter is_rate_row (committed world0) ++
    [base_rate_row {| br_epoch_index := 2; base_reward_rate := 3;
                      base_exchange_rate := one_e8 |};
     validator_rate_row (rate_ex 5)].
Proof.
  assert (Hrun : commit_block healthy_env 2 (block_ex 1) world0 =
    (Ok 1004, snd (commit_block healthy_env 2 (block_ex 1) world0))) by reflexivity.
  split; [exact Hrun|].
  exact (commit_block_rate_rows healthy_env 2 (block_ex 1) world0 _ 1004 Hrun).
Defined.

(** ** [commit_genesis] *)

Lemma fold_apply_inserts_eq {A} (f : A -> Stmt) (g : A -> Row) xs dbtx :
  (forall x, f x = Insert (g x)) ->
  fold_left (fun db x => apply_stmt (f x) db) xs dbtx = dbtx ++ map g xs.
Proof.
  intros Hf. revert dbtx; induction xs as [|x xs IH]; intros dbtx; simpl.
  - rewrite app_nil_r. reflexivity.
  - rewrite Hf. simpl. rewrite IH, <- app_assoc. reflexivity.
Qed.

Lemma genesis_validators_ok env vps :
  forall dbtx nrd w dbtx' nrd',
  fst (genesis_validators env vps dbtx nrd w) = Ok (dbtx', nrd') ->
  (exists rows, dbtx' = dbtx ++ rows /\
     forall vp, vp ∈ vps ->
       RValidatorRate (identity_key (validator vp)) 0 0 one_e8 ∈ rows /\
       RValidatorRate (identity_key (validator vp)) 1 0 one_e8 ∈ rows) /\
  (forall ik, nrd' !! ik =
     if bool_decide (ik ∈ genesis_ids vps)
     then Some {| rd_identity_key := ik; epoch_index := 1;
                  validator_reward_rate := 0; validator_exchange_rate := one_e8 |}
     else nrd !! ik).
Proof.
  induction vps as [|vp vps IH]; intros dbtx nrd w dbtx' nrd' H;
    cbn [genesis_validators] in H.
  - injection H as <- <-. split.
    + exists []. rewrite app_nil_r. split; [reflexivity|]. intros vp Hvp. inversion Hvp.
    + intros ik. reflexivity.
  - apply bind_ok_inv in H as (d1 & H1 & H); [|apply ro_exec].
    apply bind_ok_inv in H as (d2 & H2 & H); [|apply ro_exec_each].
    apply bind_ok_inv in H as (d3 & H3 & H); [|apply ro_exec_each].
    apply exec_ok in H1 as [-> _].
    apply exec_each_ok in H2 as ->. apply exec_each_ok in H3 as ->.
    rewrite (fold_apply_inserts_eq _
               (fun '(address, rate_bps) =>
                  RFundingStream (identity_key (validator vp)) address rate_bps)) in H
      by (intros [? ?]; reflexivity).
    rewrite (fold_apply_inserts_eq _
               (fun epoch => RValidatorRate (identity_key (validator vp)) epoch 0 one_e8))
      in H by reflexivity.
    apply IH in H as [(rows & -> & Hrows) Hmap]. split.
    + eexists. split.
      { simpl. rewrite <- !app_assoc. reflexivity. }
      intros vp' Hvp'. apply elem_of_cons in Hvp' as [->|Hvp'].
      * split; set_solver.
      * destruct (Hrows vp' Hvp') as [Hr0 Hr1]. split; set_solver.
    + intros ik. rewrite Hmap. unfold genesis_ids. simpl.
      destruct (decide (ik = identity_key (validator vp))) as [->|Hne].
      * rewrite lookup_insert_eq.
        rewrite (bool_decide_eq_true_2 (_ ∈ _ :: _)) by (left).
        destruct (bool_decide _); reflexivity.
      * rewrite lookup_insert_ne by congruence.
        destruct (bool_decide (ik ∈ map _ vps)) eqn:Hb1;
        destruct (bool_decide (ik ∈ _ :: map _ vps)) eqn:Hb2; try reflexivity.
        -- apply bool_decide_eq_true_1 in Hb1. apply bool_decide_eq_false_1 in Hb2.
           exfalso. apply Hb2. right. exact Hb1.
        -- apply bool_decide_eq_false_1 in Hb1. apply bool_decide_eq_true_1 in Hb2.
           apply elem_of_cons in Hb2 as [?|?]; [congruence|contradiction].
Qed.

(** What a successful [commit_genesis] leaves behind. *)
Lemma commit_genesis_ok env g w w' :
  commit_genesis env g w = (Ok tt, w') ->
  (exists b rows,
     committed w' = committed w ++ RBlob "gc"%string b :: RBaseRate 0 0 one_e8 ::
                      RBaseRate 1 0 one_e8 :: rows /\
     forall vp, vp ∈ validators g ->
       RValidatorRate (identity_key (validator vp)) 0 0 one_e8 ∈ rows /\
       RValidatorRate (identity_key (validator vp)) 1 0 one_e8 ∈ rows) /\
  (forall ik, next_rate_data_ch w' !! ik =
     if bool_decide (ik ∈ genesis_ids (validators g))
     then Some {| rd_identity_key := ik; epoch_index := 1;
                  validator_reward_rate := 0; validator_exchange_rate := one_e8 |}
     else None) /\
  trace w' = trace w ++ [Committed; Sent ChainParamsCh; Sent NextRateDataCh].
Proof.
  unfold commit_genesis. cbv beta zeta. run_ro.
  all: try (intros H; discriminate).
  rewrite bind_commit. destruct (commit_fails _ _); [intros H; discriminate|].
  unfold mbind, M_bind, send_chain_params, send_next_rate_data. simpl.
  intros H. injection H as <-. simpl.
  match goal with E : fst (genesis_validators _ _ _ _ _) = Ok _ |- _ =>
    apply genesis_validators_ok in E as [(rows & -> & Hrows) Hmap] end.
  match goal with E : fst (of_option _ _ _) = Ok ?b |- _ => rename b into gb end.
  repeat match goal with
  | E : fst (begin _ _) = Ok _ |- _ => apply begin_ok in E; subst
  | E : fst (exec _ _ _ _) = Ok _ |- _ => apply exec_ok in E as [E _]; subst
  | E : fst (exec_each _ _ _ _ _) = Ok _ |- _ => apply exec_each_ok in E; subst
  end.
  split; [|split].
  - exists gb, rows. split; [|exact Hrows].
    simpl. rewrite <- !app_assoc. reflexivity.
  - intros ik. rewrite Hmap. destruct (bool_decide _); reflexivity.
  - rewrite <- !app_assoc. reflexivity.
Qed.

(** C6: a successful [commit_genesis] appends to the store the [gc] blob,
    base-rate rows for epochs 0 and 1 with reward rate 0 and exchange rate
    100000000, then rows that include, for each genesis validator, the
    validator-rate rows for epochs 0 and 1 with the same rates; and it
    publishes a next-rate-data map whose entries are exactly the genesis
    validators' identity keys, each with epoch index 1, reward rate 0 and
    exchange rate 100000000. *)
Theorem commit_genesis_initial_rates (env : Env) (g : AppState) (w w' : World) :
  commit_genesis env g w = (Ok tt, w') ->
  (exists b rows,
     committed w' = committed w ++ RBlob "gc"%string b :: RBaseRate 0 0 one_e8 ::
                      RBaseRate 1 0 one_e8 :: rows /\
     forall vp, vp ∈ validators g ->
       RValidatorRate (identity_key (validator vp)) 0 0 one_e8 ∈ rows /\
       RValidatorRate (identity_key (validator vp)) 1 0 one_e8 ∈ rows) /\
  (forall ik, next_rate_data_ch w' !! ik =
     if bool_decide (ik ∈ genesis_ids (validators g))
     then Some {| rd_identity_key := ik; epoch_index := 1;
                  validator_reward_rate := 0; validator_exchange_rate := 100000000 |}
     else None).
Proof.
  intros H. apply commit_genesis_ok in H as (Hdb & Hmap & _).
  split; [exact Hdb|exact Hmap].
Qed.

Lemma commit_genesis_initial_rates_witness :
  let w' := snd (commit_genesis healthy_env genesis_ex world0) in
  commit_genesis healthy_env genesis_ex world0 = (Ok tt, w') /\
  next_rate_data_ch w' !! 5 =
    Some {| rd_identity_key := 5; epoch_index := 1;
            validator_reward_rate := 0; validator_exchange_rate := 100000000 |}.
Proof.
  intros w'.
  assert (Hrun : commit_genesis healthy_env genesis_ex world0 = (Ok tt, w'))
    by reflexivity.
  split; [exact Hrun|].
  destruct (commit_genesis_initial_rates healthy_env genesis_ex world0 w' Hrun)
    as [_ Hmap].
  rewrite Hmap. reflexivity.
Defined.

(** C5: once [commit_genesis] has succeeded, a second call fails and leaves
    the store and the channels as the first call left them; when beginning
    the transaction and serializing the config succeed, the failure is the
    uniqueness violation of the [gc] blob insert. *)
Theorem commit_genesis_twice (env : Env) (g1 g2 : AppState) (w0 w1 : World) :
  commit_genesis env g1 w0 = (Ok tt, w1) ->
  exists e, commit_genesis env g2 w1 = (Err e, w1) /\
    (begin_fails env (committed w1) = false ->
     serialize_genesis env g2 <> None ->
     e = Db UniqueViolation).
Proof.
  intros H1. apply commit_genesis_ok in H1 as ((b & rows & Hdb & _) & _ & _).
  assert (Hgc : existsb (blob_id_is "gc"%string) (committed w1) = true).
  { rewrite Hdb, existsb_app. apply orb_true_iff. right. reflexivity. }
  unfold commit_genesis. cbv beta zeta.
  rewrite (bind_ro _ _ _ (ro_begin env)).
  unfold begin at 1. destruct (begin_fails env (committed w1)) eqn:Hb; simpl.
  { exists (Db OtherDbError). split; [reflexivity|intros; discriminate]. }
  rewrite (bind_ro _ _ _ (ro_of_option _ _)).
  destruct (serialize_genesis env g2) as [gb|]; simpl.
  2: { exists SerializeError. split; [reflexivity|intros _ Hs; contradiction]. }
  unfold mbind at 1, M_bind at 1, exec at 1. simpl violates_unique. rewrite Hgc.
  exists (Db UniqueViolation). split; reflexivity.
Qed.

Lemma commit_genesis_twice_witness :
  let w1 := snd (commit_genesis healthy_env genesis_ex world0) in
  commit_genesis healthy_env genesis_ex world0 = (Ok tt, w1) /\
  exists e, commit_genesis healthy_env genesis_ex w1 = (Err e, w1) /\
    (begin_fails healthy_env (committed w1) = false ->
     serialize_genesis healthy_env genesis_ex <> None ->
     e = Db UniqueViolation).
Proof.
  intros w1.
  assert (Hrun : commit_genesis healthy_env genesis_ex world0 = (Ok tt, w1))
    by reflexivity.
  split; [exact Hrun|].
  exact (commit_genesis_twice healthy_env genesis_ex genesis_ex world0 w1 Hrun).
Defined.

Lemma run_stmts_app_Some l1 l2 db db1 :
  run_stmts l1 db = Some db1 -> run_stmts (l1 ++ l2) db = run_stmts l2 db1.
Proof.
  revert db; induction l1 as [|q l1 IH]; intros db H; simpl in H |- *.
  - injection H as <-. reflexivity.
  - destruct (violates_unique q db); [discriminate|]. apply IH, H.
Qed.

Lemma exec_run env q db w db' :
  fst (exec env q db w) = Ok db' -> run_stmts [q] db = Some db'.
Proof.
  intros H. apply exec_ok in H as [-> Hv]. simpl. rewrite Hv. reflexivity.
Qed.

Lemma exec_each_run {A} env (f : A -> Stmt) xs db w db' :
  fst (exec_each env f xs db w) = Ok db' -> run_stmts (map f xs) db = Some db'.
Proof.
  revert db; induction xs as [|x xs IH]; intros db H; simpl in H |- *.
  - injection H as <-. reflexivity.
  - apply bind_ok_inv in H as (a & Ha & Hk); [|apply ro_exec].
    apply exec_ok in Ha as [-> Hv]. rewrite Hv. apply IH in Hk. exact Hk.
Qed.

Lemma insert_next_rates_run env block db w db' :
  fst (insert_next_rates env block db w) = Ok db' ->
  run_stmts (match next_base_rate block, next_rates block with
   | Some base_rate_data, Some rate_data =>
      Insert (RBaseRate (as_i64 (br_epoch_index base_rate_data))
                (as_i64 (base_reward_rate base_rate_data))
                (as_i64 (base_exchange_rate base_rate_data))) ::
      map (fun rate =>
          Insert (RValidatorRate (rd_identity_key rate) (as_i64 (epoch_index rate))
                    (as_i64 (validator_reward_rate rate))
                    (as_i64 (validator_exchange_rate rate))))
        rate_data
   | _, _ => [] end) db = Some db'.
Proof.
  unfold insert_next_rates.
  destruct (next_base_rate block) as [br|], (next_rates block) as [rd|];
    try (simpl; intros H; injection H as <-; reflexivity).
  intros H. apply bind_ok_inv in H as (a & Ha & Hk); [|apply ro_exec].
  apply exec_run in Ha. apply exec_each_run in Hk.
  change (?q :: ?l) with ([q] ++ l). erewrite run_stmts_app_Some by exact Ha. exact Hk.
Qed.

Lemma update_voting_powers_run env block db w db' :
  fst (update_voting_powers env block db w) = Ok db' ->
  run_stmts (match next_validator_statuses block with
  | Some validator_statuses =>
      map (fun status =>
          UpdateVotingPower (as_i64 (voting_power status)) (vs_identity_key status))
        validator_statuses
  | None => [] end) db = Some db'.
Proof.
  unfold update_voting_powers. destruct (next_validator_statuses block).
  - apply exec_each_run.
  - simpl. intros H. injection H as <-. reflexivity.
Qed.

Lemma of_option_ok {A} e (o : option A) w a : fst (of_option e o w) = Ok a -> o = Some a.
Proof. destruct o; simpl; congruence. Qed.

Lemma expect_ok {A} msg (o : option A) w a : fst (expect msg o w) = Ok a -> o = Some a.
Proof. destruct o; simpl; congruence. Qed.

Lemma jmt_put_ok env an v w r :
  fst (jmt_put env an v w) = Ok r -> jmt_put_value_set env (committed w) an v = Some r.
Proof. unfold jmt_put. destruct (jmt_put_value_set _ _ _ _); simpl; congruence. Qed.

Lemma height_try_into_Some h h' : height_try_into h = Some h' -> h' = h /\ (h < 2 ^ 63)%Z.
Proof.
  unfold height_try_into. destruct (Z.ltb_spec h (2 ^ 63)); [|discriminate].
  intros H'; injection H' as <-. auto.
Qed.

Ltac run_ok :=
  repeat match goal with
  | E : fst (begin _ _) = Ok _ |- _ => apply begin_ok in E; subst
  | E : fst (of_option _ _ _) = Ok _ |- _ => apply of_option_ok in E
  | E : fst (expect _ _ _) = Ok _ |- _ => apply expect_ok in E
  | E : fst (jmt_put _ _ _ _) = Ok _ |- _ => apply jmt_put_ok in E
  | E : fst (borrow_anchors _) = Ok _ |- _ => cbn in E; injection E as <-
  | E : fst (exec _ _ _ _) = Ok _ |- _ => apply exec_run in E
  | E : fst (exec_each _ _ _ _ _) = Ok _ |- _ => apply exec_each_run in E
  | E : fst (insert_next_rates _ _ _ _) = Ok _ |- _ => apply insert_next_rates_run in E
  | E : fst (update_voting_powers _ _ _ _) = Ok _ |- _ =>
      apply update_voting_powers_run in E
  end.

Lemma commit_block_ok_run env N block w w' h :
  commit_block env N block w = (Ok h, w') ->
  exists ht e b nodes,
    height block = Some ht /\ epoch block = Some e /\
    serialize_nct env (note_commitment_tree block) = Some b /\
    jmt_put_value_set env (committed w) (root2 env (note_commitment_tree block)) ht =
      Some (h, nodes) /\
    height_try_into ht = Some ht /\
    run_stmts (block_stmts (root2 env (note_commitment_tree block)) b ht h nodes
                 (index e) block) (committed w) = Some (committed w') /\
    chain_params_ch w' = chain_params_ch w /\ height_ch w' = ht /\
    valid_anchors_ch w' =
      update_anchors N (root2 env (note_commitment_tree block)) (valid_anchors_ch w) /\
    next_rate_data_ch w' = match next_rates block with
                           | Some rs => collect_rate_data rs
                           | None => next_rate_data_ch w
                           end /\
    trace w' = trace w ++ Committed :: Sent HeightCh :: Sent ValidAnchorsCh ::
                 match next_rates block with Some _ => [Sent NextRateDataCh] | None => [] end.
Proof.
  unfold commit_block. cbv beta zeta. run_ro.
  all: try (intros H; discriminate).
  rewrite bind_commit. destruct (commit_fails _ _); [intros H; discriminate|].
  destruct (height_try_into _) as [h'|] eqn:Ehi; [|intros H; discriminate].
  intros H.
  unfold mbind, M_bind, mret, M_ret, expect, panic,
    send_height, send_valid_anchors, send_next_rate_data in H.
  pose proof Ehi as Ehi'. apply height_try_into_Some in Ehi' as [-> _].
  run_ok.
  match goal with Eh : height block = Some ?x, Ee : epoch block = Some ?y,
                  Es : serialize_nct _ _ = Some ?z, Ej : jmt_put_value_set _ _ _ _ = Some (?hh, ?nn) |- _ =>
    exists x, y, z, nn; split; [exact Eh|split; [exact Ee|split; [exact Es|]]];
    assert (Hrun : run_stmts (block_stmts (root2 env (note_commitment_tree block)) z x hh nn
                      (index y) block) (committed w) = Some a11)
  end.
  { unfold block_stmts.
    match goal with |- run_stmts ([?q1; ?q2; ?q3] ++ ?L) _ = _ =>
      change ([q1; q2; q3] ++ L) with ([q1] ++ [q2] ++ [q3] ++ L) end.
    repeat (erewrite run_stmts_app_Some by eassumption). assumption. }
  simpl in H. destruct (next_rates block); simpl in H; injection H as <- <-; simpl;
    (split; [assumption|split; [assumption|split; [exact Hrun|]]]);
    repeat split; rewrite <- ?app_assoc; reflexivity.
Qed.

Lemma run_stmts_fold qs db db' :
  run_stmts qs db = Some db' -> db' = fold_left (fun db q => apply_stmt q db) qs db.
Proof.
  revert db; induction qs as [|q qs IH]; intros db H; simpl in H |- *.
  - injection H as <-. reflexivity.
  - destruct (violates_unique q db); [discriminate|]. apply IH, H.
Qed.

Lemma run_stmts_app_inv l1 l2 db db' :
  run_stmts (l1 ++ l2) db = Some db' ->
  exists db1, run_stmts l1 db = Some db1 /\ run_stmts l2 db1 = Some db'.
Proof.
  revert db; induction l1 as [|q l1 IH]; intros db H; simpl in H |- *.
  - eauto.
  - destruct (violates_unique q db); [discriminate|]. apply IH, H.
Qed.

Lemma filter_map_fix (p : Row -> bool) (g : Row -> Row) (db : DB) :
  (forall r, p (g r) = p r) -> (forall r, p r = true -> g r = r) ->
  List.filter p (map g db) = List.filter p db.
Proof.
  intros Hg Hid. induction db as [|r db IH]; [reflexivity|]. simpl.
  rewrite Hg. destruct (p r) eqn:Hr; [rewrite Hid by exact Hr|]; rewrite IH; reflexivity.
Qed.

Lemma filter_map_commute (p : Row -> bool) (g : Row -> Row) (db : DB) :
  (forall r, p (g r) = p r) ->
  List.filter p (map g db) = map g (List.filter p db).
Proof.
  intros Hg. induction db as [|r db IH]; [reflexivity|]. simpl.
  rewrite Hg. destruct (p r); simpl; rewrite IH; reflexivity.
Qed.

Lemma filter_map_const {A} (p : Row -> bool) (g : A -> Row) (xs : list A) b :
  (forall x, p (g x) = b) ->
  List.filter p (map g xs) = if b then map g xs else [].
Proof.
  intros Hg. induction xs as [|x xs IH]; [destruct b; reflexivity|]. simpl.
  rewrite Hg, IH. destruct b; reflexivity.
Qed.

Lemma stmt_keeps_apply p q db :
  stmt_keeps p q ->
  List.filter p (apply_stmt q db) = List.filter p db ++ List.filter p (inserted_rows [q]).
Proof.
  intros Hq. unfold inserted_rows.
  destruct q as [r|id data|nodes|a denom supply|pw ik]; simpl in Hq |- *.
  - rewrite List.filter_app. reflexivity.
  - rewrite (app_nil_r (List.filter p db)). destruct (existsb (blob_id_is id) db).
    + apply filter_map_fix.
      * intros r. destruct (blob_id_is id r) eqn:Hb; [|reflexivity].
        destruct r; try discriminate. simpl in Hb. case_bool_decide; [subst|discriminate].
        rewrite !Hq. reflexivity.
      * intros r Hr. destruct (blob_id_is id r) eqn:Hb; [|reflexivity].
        destruct r; try discriminate. simpl in Hb. case_bool_decide; [subst|discriminate].
        rewrite Hq in Hr. discriminate.
    + rewrite List.filter_app. simpl. rewrite Hq, app_nil_r. reflexivity.
  - rewrite List.filter_app. f_equal.
    induction Hq as [|n nodes Hn _ IH]; [reflexivity|]. simpl. rewrite Hn. exact IH.
  - rewrite (app_nil_r (List.filter p db)). destruct (existsb (asset_id_is a) db).
    + apply filter_map_fix.
      * intros r. destruct (asset_id_is a r) eqn:Hb; [|reflexivity].
        destruct r; try discriminate. simpl in Hb. case_bool_decide; [subst|discriminate].
        rewrite !Hq. reflexivity.
      * intros r Hr. destruct (asset_id_is a r) eqn:Hb; [|reflexivity].
        destruct r; try discriminate. simpl in Hb. case_bool_decide; [subst|discriminate].
        rewrite Hq in Hr. discriminate.
    + rewrite List.filter_app. simpl. rewrite Hq, app_nil_r. reflexivity.
  - rewrite (app_nil_r (List.filter p db)). apply filter_map_fix.
    + intros r. destruct r; try reflexivity. case_bool_decide; [subst|reflexivity].
      rewrite !Hq. reflexivity.
    + intros r Hr. destruct r; try reflexivity. case_bool_decide; [subst|reflexivity].
      rewrite Hq in Hr. discriminate.
Qed.

Lemma fold_keeps p qs db :
  Forall (stmt_keeps p) qs ->
  List.filter p (fold_left (fun db q => apply_stmt q db) qs db) =
  List.filter p db ++ List.filter p (inserted_rows qs).
Proof.
  intros Hqs. revert db; induction Hqs as [|q qs Hq _ IH]; intros db; simpl.
  - rewrite app_nil_r. reflexivity.
  - rewrite IH, stmt_keeps_apply by exact Hq. unfold inserted_rows. simpl.
    rewrite app_nil_r, !List.filter_app, app_assoc. reflexivity.
Qed.

Lemma insert_only_keeps p qs : insert_only p -> Forall (stmt_keeps p) qs.
Proof.
  intros (Hb & Hn & Ha & Hv). apply Forall_forall. intros q _.
  destruct q; simpl; auto. apply Forall_forall. intros; apply Hn.
Qed.

Lemma inserted_rows_app l1 l2 :
  inserted_rows (l1 ++ l2) = inserted_rows l1 ++ inserted_rows l2.
Proof. unfold inserted_rows. apply flat_map_app. Qed.

Lemma inserted_rows_cons q l : inserted_rows (q :: l) = inserted_rows [q] ++ inserted_rows l.
Proof. unfold inserted_rows. simpl. rewrite app_nil_r. reflexivity. Qed.

Lemma inserted_rows_map {A} (f : A -> Stmt) (g : A -> Row) xs :
  (forall x, f x = Insert (g x)) -> inserted_rows (map f xs) = map g xs.
Proof.
  intros Hf. induction xs as [|x xs IH]; [reflexivity|].
  cbn [map]. rewrite inserted_rows_cons, IH, Hf. reflexivity.
Qed.

Lemma inserted_rows_map_none {A} (f : A -> Stmt) xs :
  (forall x, match f x with Insert _ => False | _ => True end) ->
  inserted_rows (map f xs) = [].
Proof.
  intros Hf. induction xs as [|x xs IH]; [reflexivity|].
  cbn [map]. rewrite inserted_rows_cons, IH. specialize (Hf x).
  destruct (f x); try contradiction; reflexivity.
Qed.

Lemma block_inserted_rows an b ht h nodes ei block :
  inserted_rows (block_stmts an b ht h nodes ei block) =
  RBlock (as_i64 ht) an h :: map (note_row ht) (notes block) ++
  map (nullifier_row ht) (spent_nullifiers block) ++
  map (delegation_change_row ei) (delegation_changes block) ++
  match next_base_rate block, next_rates block with
  | Some br, Some rd => base_rate_row br :: map validator_rate_row rd
  | _, _ => []
  end.
Proof.
  unfold block_stmts. rewrite !inserted_rows_app.
  rewrite (inserted_rows_map _ (note_row ht)) by (intros [? ?]; reflexivity).
  rewrite (inserted_rows_map _ (nullifier_row ht)) by reflexivity.
  rewrite (inserted_rows_map _ (delegation_change_row ei)) by (intros [? ?]; reflexivity).
  rewrite inserted_rows_map_none by (intros [? [? ?]]; exact I).
  replace (inserted_rows match next_validator_statuses block with
                         | Some sts => map _ sts | None => [] end) with (@nil Row)
    by (destruct (next_validator_statuses block);
        [rewrite inserted_rows_map_none by (intros; exact I)|]; reflexivity).
  rewrite app_nil_r. simpl. f_equal. f_equal. f_equal. f_equal.
  destruct (next_base_rate block), (next_rates block); try reflexivity.
  rewrite inserted_rows_cons.
  rewrite (inserted_rows_map _ validator_rate_row) by reflexivity. reflexivity.
Qed.

Ltac insert_only_tac :=
  split; [intros; reflexivity|split; [intros; reflexivity|split; intros; reflexivity]].

(** Computes [List.filter p] of the rows [commit_block] inserts. *)
Ltac filter_rows :=
  repeat progress (
    simpl; rewrite ?List.filter_app;
    repeat match goal with
    | |- context [List.filter ?p (map ?g ?xs)] =>
        first [rewrite (filter_map_const p g xs true) by reflexivity
              |rewrite (filter_map_const p g xs false) by reflexivity]
    end);
  rewrite ?app_nil_r.

(** X3: after a successful [commit_block] of a block with height [ht],
    the blocks table has gained exactly the row of that height (its nct
    anchor and the returned app hash), the notes table exactly the block's
    notes in order, and the nullifiers table exactly its spent nullifiers,
    all at height [ht]; earlier rows of these tables are kept in order. *)
Theorem commit_block_ledger_rows (env : Env) (N : nat) (block : PendingBlock)
    (w w' : World) (h : Hash) (ht : Z) :
  commit_block env N block w = (Ok h, w') -> height block = Some ht ->
  List.filter is_block_row (committed w') =
    List.filter is_block_row (committed w) ++
      [RBlock (as_i64 ht) (root2 env (note_commitment_tree block)) h] /\
  List.filter is_note_row (committed w') =
    List.filter is_note_row (committed w) ++ map (note_row ht) (notes block) /\
  List.filter is_nullifier_row (committed w') =
    List.filter is_nullifier_row (committed w) ++
      map (nullifier_row ht) (spent_nullifiers block).
Proof.
  intros Hrun Hh.
  apply commit_block_ok_run in Hrun as (ht' & e & b & nodes & Hh' & _ & _ & _ & _ & Hr & _).
  rewrite Hh in Hh'. injection Hh' as <-.
  apply run_stmts_fold in Hr. rewrite Hr.
  rewrite !fold_keeps by (apply insert_only_keeps; insert_only_tac).
  rewrite block_inserted_rows.
  destruct (next_base_rate block), (next_rates block); filter_rows;
    (split; [|split]); reflexivity.
Qed.

(** X4: after a successful [commit_block], the delegation_changes table
    has gained exactly the block's delegation changes, in order, each at the
    block's epoch index. *)
Theorem commit_block_delegation_rows (env : Env) (N : nat) (block : PendingBlock)
    (w w' : World) (h : Hash) (e : Epoch) :
  commit_block env N block w = (Ok h, w') -> epoch block = Some e ->
  List.filter is_delegation_change_row (committed w') =
    List.filter is_delegation_change_row (committed w) ++
      map (delegation_change_row (index e)) (delegation_changes block).
Proof.
  intros Hrun He.
  apply commit_block_ok_run in Hrun as (ht & e' & b & nodes & _ & He' & _ & _ & _ & Hr & _).
  rewrite He in He'. injection He' as <-.
  apply run_stmts_fold in Hr. rewrite Hr.
  rewrite !fold_keeps by (apply insert_only_keeps; insert_only_tac).
  rewrite block_inserted_rows.
  destruct (next_base_rate block), (next_rates block); filter_rows; reflexivity.
Qed.

Lemma collect_rate_data_lookup_gen (rs : list RateData) (m : RateDataById) ik :
  foldl (fun m rd => <[rd_identity_key rd := rd]> m) m rs !! ik =
  match last_rate rs ik with Some rd => Some rd | None => m !! ik end.
Proof.
  revert m; induction rs as [|rd rs IH]; intros m; [reflexivity|]. simpl.
  rewrite IH. unfold last_rate. simpl. case_bool_decide as Heq.
  - rewrite last_cons. destruct (last _); [reflexivity|].
    subst ik. rewrite lookup_insert_eq. reflexivity.
  - destruct (last _); [reflexivity|]. rewrite lookup_insert_ne by congruence. reflexivity.
Qed.

(** X9: after a successful [commit_block] the chain-params channel is
    unchanged, the height channel holds the block's height, the next-rate
    channel maps each identity key to the block's last rate data for that key
    when the block carries rates (and is unchanged otherwise), and the trace
    records the commit followed by the height, anchors and (with rates)
    next-rate publications. *)
Theorem commit_block_channels (env : Env) (N : nat) (block : PendingBlock)
    (w w' : World) (h : Hash) :
  commit_block env N block w = (Ok h, w') ->
  chain_params_ch w' = chain_params_ch w /\
  height block = Some (height_ch w') /\
  (forall ik, next_rate_data_ch w' !! ik =
     match next_rates block with
     | Some rs => last_rate rs ik
     | None => next_rate_data_ch w !! ik
     end) /\
  trace w' = trace w ++ Committed :: Sent HeightCh :: Sent ValidAnchorsCh ::
               match next_rates block with Some _ => [Sent NextRateDataCh] | None => [] end.
Proof.
  intros Hrun.
  apply commit_block_ok_run in Hrun
    as (ht & e & b & nodes & Hh & _ & _ & _ & _ & _ & Hcp & Hht & _ & Hnrd & Htr).
  split; [exact Hcp|split; [rewrite Hht; exact Hh|split; [|exact Htr]]].
  intros ik. rewrite Hnrd. destruct (next_rates block) as [rs|]; [|reflexivity].
  unfold collect_rate_data. rewrite collect_rate_data_lookup_gen, lookup_empty.
  destruct (last_rate rs ik); reflexivity.
Qed.

(** X10: the app hash a successful [commit_block] returns is the root
    that the JMT computes over the committed store at the nct anchor for the
    block's height, and that height is below [2^63]. *)
Theorem commit_block_app_hash (env : Env) (N : nat) (block : PendingBlock)
    (w w' : World) (h : Hash) :
  commit_block env N block w = (Ok h, w') ->
  exists ht nodes, height block = Some ht /\ (ht < 2 ^ 63)%Z /\
    jmt_put_value_set env (committed w) (root2 env (note_commitment_tree block)) ht =
      Some (h, nodes) /\
    ((0 <= ht)%Z -> as_i64 ht = ht).
Proof.
  intros Hrun.
  apply commit_block_ok_run in Hrun as (ht & e & b & nodes & Hh & _ & _ & Hj & Hti & _).
  apply height_try_into_Some in Hti as [_ Hlt].
  exists ht, nodes. split; [exact Hh|split; [exact Hlt|split; [exact Hj|]]].
  intros Hge. unfold as_i64. rewrite Z.mod_small by lia.
  destruct (Z.leb_spec (2 ^ 63) ht); [lia|reflexivity].
Qed.

Lemma run_nullifiers (nfs : list nat) x d d' :
  run_stmts (map (fun nullifier => Insert (RNullifier nullifier x)) nfs) d = Some d' ->
  NoDup nfs /\ forall nf hgt, nf ∈ nfs -> RNullifier nf hgt ∉ d.
Proof.
  revert d; induction nfs as [|nf nfs IH]; intros d H.
  - split; [constructor|intros nf hgt Hin; inversion Hin].
  - simpl in H. destruct (existsb (nullifier_is nf) d) eqn:Hex; [discriminate|].
    apply IH in H as [Hnd Hfresh].
    assert (Hnot : forall hgt, RNullifier nf hgt ∉ d).
    { intros hgt Hin. apply list_elem_of_In in Hin.
      assert (existsb (nullifier_is nf) d = true) as Ht.
      { apply existsb_exists. exists (RNullifier nf hgt). split; [exact Hin|].
        simpl. apply bool_decide_eq_true_2. reflexivity. }
      congruence. }
    split.
    + constructor; [|exact Hnd]. intros Hin. apply (Hfresh nf x Hin).
      apply elem_of_app. right. left.
    + intros nf' hgt Hin. apply elem_of_cons in Hin as [->|Hin]; [apply Hnot|].
      intros Hd. apply (Hfresh nf' hgt Hin). apply elem_of_app. left. exact Hd.
Qed.

Lemma run_keeps_elem p qs d d' r :
  Forall (stmt_keeps p) qs -> p r = true ->
  run_stmts qs d = Some d' -> r ∈ d -> r ∈ d'.
Proof.
  intros Hk Hp Hr Hin. apply run_stmts_fold in Hr. subst d'.
  assert (Hf : r ∈ List.filter p (fold_left (fun db q => apply_stmt q db) qs d)).
  { rewrite fold_keeps by exact Hk. apply elem_of_app. left.
    apply list_elem_of_In, filter_In. split; [apply list_elem_of_In, Hin|exact Hp]. }
  apply list_elem_of_In, filter_In in Hf as [Hf _]. apply list_elem_of_In, Hf.
Qed.

(** X5: [commit_block] succeeds only for a block whose spent nullifiers
    are pairwise distinct and none of which is already in the nullifiers
    table of the committed store. *)
Theorem commit_block_nullifiers_fresh (env : Env) (N : nat) (block : PendingBlock)
    (w w' : World) (h : Hash) :
  commit_block env N block w = (Ok h, w') ->
  NoDup (spent_nullifiers block) /\
  forall nf hgt, nf ∈ spent_nullifiers block -> RNullifier nf hgt ∉ committed w.
Proof.
  intros Hrun.
  apply commit_block_ok_run in Hrun as (ht & e & b & nodes & _ & _ & _ & _ & _ & Hr & _).
  unfold block_stmts in Hr.
  apply run_stmts_app_inv in Hr as (d1 & H1 & Hr).
  apply run_stmts_app_inv in Hr as (d2 & H2 & Hr).
  apply run_stmts_app_inv in Hr as (d3 & H3 & _).
  apply run_nullifiers in H3 as [Hnd Hfresh].
  split; [exact Hnd|]. intros nf hgt Hin Hw.
  apply (Hfresh nf hgt Hin).
  assert (Hk : forall qs, Forall (stmt_keeps is_nullifier_row) qs)
    by (intros qs; apply insert_only_keeps; insert_only_tac).
  eapply (run_keeps_elem is_nullifier_row); [apply Hk|reflexivity|exact H2|].
  eapply (run_keeps_elem is_nullifier_row); [apply Hk|reflexivity|exact H1|exact Hw].
Qed.

Ltac keeps_tac :=
  repeat match goal with
  | |- Forall _ [] => constructor
  | |- Forall _ (_ :: _) => constructor
  | |- Forall _ (_ ++ _) => apply Forall_app; split
  | |- Forall _ (map _ _) =>
      let Hq := fresh "Hq" in
      apply Forall_forall; intros ? Hq; apply list_elem_of_In, in_map_iff in Hq as (? & <- & _)
  | |- Forall _ (match ?x with _ => _ end) => destruct x
  end;
  repeat match goal with p : prod _ _ |- _ => destruct p end;
  simpl;
  first [exact I|intros; reflexivity|apply Forall_forall; intros; reflexivity].

Lemma filter_existsb_false (f : Row -> bool) (l : list Row) :
  existsb f l = false -> List.filter f l = [].
Proof.
  induction l as [|r l IH]; [reflexivity|]. simpl. intros H.
  apply orb_false_iff in H as [H1 H2]. rewrite H1. apply IH, H2.
Qed.

Lemma filter_existsb_true (f : Row -> bool) (l : list Row) :
  existsb f l = true -> List.filter f l <> [].
Proof.
  induction l as [|r l IH]; [discriminate|]. simpl. intros H.
  destruct (f r); [discriminate|]. apply IH, H.
Qed.

Lemma upsert_blob_rows id d db :
  List.filter (blob_id_is id) (apply_stmt (UpsertBlob id d) db) <> [] /\
  Forall (fun r => r = RBlob id d) (List.filter (blob_id_is id) (apply_stmt (UpsertBlob id d) db)).
Proof.
  simpl. destruct (existsb (blob_id_is id) db) eqn:Hex.
  - rewrite filter_map_commute.
    + split.
      * intros Hnil. apply map_eq_nil in Hnil. revert Hnil. apply filter_existsb_true, Hex.
      * apply Forall_forall. intros r Hr.
        apply list_elem_of_In, in_map_iff in Hr as (r0 & <- & Hr0).
        apply filter_In in Hr0 as [_ Hb]. rewrite Hb. reflexivity.
    + intros r. destruct (blob_id_is id r) eqn:Hb.
      * simpl. rewrite bool_decide_eq_true_2 by reflexivity. reflexivity.
      * exact Hb.
  - rewrite List.filter_app, filter_existsb_false by exact Hex. simpl.
    rewrite bool_decide_eq_true_2 by reflexivity.
    split; [discriminate|repeat constructor].
Qed.

Lemma block_stmts_blob_rows id an b ht h nodes ei block db :
  List.filter (blob_id_is id)
    (fold_left (fun db q => apply_stmt q db) (block_stmts an b ht h nodes ei block) db) =
  List.filter (blob_id_is id) (apply_stmt (UpsertBlob "nct"%string b) db).
Proof.
  assert (Hsplit : block_stmts an b ht h nodes ei block =
                   UpsertBlob "nct"%string b :: tl (block_stmts an b ht h nodes ei block))
    by reflexivity.
  assert (Hins : inserted_rows (tl (block_stmts an b ht h nodes ei block)) =
                 inserted_rows (block_stmts an b ht h nodes ei block))
    by (rewrite Hsplit at 2; rewrite inserted_rows_cons; reflexivity).
  rewrite Hsplit. cbn [fold_left]. rewrite fold_keeps.
  - rewrite Hins, block_inserted_rows.
    destruct (next_base_rate block), (next_rates block); filter_rows; reflexivity.
  - unfold block_stmts. simpl tl. keeps_tac.
Qed.

(** X6: after a successful [commit_block] the store holds the serialized
    note commitment tree under the [nct] blob id, every [nct] row holding
    those bytes, and the blobs of every other id (the [gc] genesis blob
    among them) are unchanged. *)
Theorem commit_block_nct_blob (env : Env) (N : nat) (block : PendingBlock)
    (w w' : World) (h : Hash) :
  commit_block env N block w = (Ok h, w') ->
  exists b, serialize_nct env (note_commitment_tree block) = Some b /\
  List.filter (blob_id_is "nct") (committed w') <> [] /\
  Forall (fun r => r = RBlob "nct" b) (List.filter (blob_id_is "nct") (committed w')) /\
  forall id, id <> "nct"%string ->
    List.filter (blob_id_is id) (committed w') = List.filter (blob_id_is id) (committed w).
Proof.
  intros Hrun.
  apply commit_block_ok_run in Hrun as (ht & e & b & nodes & _ & _ & Hs & _ & _ & Hr & _).
  apply run_stmts_fold in Hr. exists b. split; [exact Hs|].
  rewrite Hr. split; [|split]; [rewrite block_stmts_blob_rows; apply upsert_blob_rows..|].
  - intros id Hid. rewrite block_stmts_blob_rows, stmt_keeps_apply.
    + unfold inserted_rows. simpl. apply app_nil_r.
    + intros d. simpl. apply bool_decide_eq_false_2. congruence.
Qed.

Lemma fold_keeps_same p qs db :
  Forall (stmt_keeps p) qs ->
  Forall (fun q => match q with Insert r => p r = false | _ => True end) qs ->
  List.filter p (fold_left (fun db q => apply_stmt q db) qs db) = List.filter p db.
Proof.
  intros Hk Hi. rewrite fold_keeps by exact Hk.
  enough (List.filter p (inserted_rows qs) = []) as -> by apply app_nil_r.
  clear Hk. induction Hi as [|q qs Hq _ IH]; [reflexivity|].
  rewrite inserted_rows_cons, List.filter_app, IH, app_nil_r.
  destruct q; simpl in Hq |- *; [rewrite Hq|..]; reflexivity.
Qed.

Lemma upsert_asset_rows a d s db :
  List.filter (asset_id_is a) (apply_stmt (UpsertAsset a d s) db) <> [] /\
  Forall (fun r => r = RAsset a d s) (List.filter (asset_id_is a) (apply_stmt (UpsertAsset a d s) db)).
Proof.
  simpl. destruct (existsb (asset_id_is a) db) eqn:Hex.
  - rewrite filter_map_commute.
    + split.
      * intros Hnil. apply map_eq_nil in Hnil. revert Hnil. apply filter_existsb_true, Hex.
      * apply Forall_forall. intros r Hr.
        apply list_elem_of_In, in_map_iff in Hr as (r0 & <- & Hr0).
        apply filter_In in Hr0 as [_ Hb]. rewrite Hb. reflexivity.
    + intros r. destruct (asset_id_is a r) eqn:Hb.
      * simpl. rewrite bool_decide_eq_true_2 by reflexivity. reflexivity.
      * exact Hb.
  - rewrite List.filter_app, filter_existsb_false by exact Hex. simpl.
    rewrite bool_decide_eq_true_2 by reflexivity.
    split; [discriminate|repeat constructor].
Qed.

Lemma last_supply_cons u ups a :
  last_supply (u :: ups) a =
  match last_supply ups a with
  | Some x => Some x
  | None => if bool_decide (u.1 = a) then Some u.2 else None
  end.
Proof.
  unfold last_supply. simpl. case_bool_decide; simpl.
  - rewrite last_cons. destruct (last _); reflexivity.
  - destruct (last _); reflexivity.
Qed.

Lemma fold_upsert_assets (ups : list (nat * (string * Z))) a db :
  let db' := fold_left (fun db q => apply_stmt q db)
               (map (fun '(id, (denom, supply)) => UpsertAsset id denom (as_i64 supply)) ups) db in
  match last_supply ups a with
  | Some (d, s) =>
      List.filter (asset_id_is a) db' <> [] /\
      Forall (fun r => r = RAsset a d (as_i64 s)) (List.filter (asset_id_is a) db')
  | None => List.filter (asset_id_is a) db' = List.filter (asset_id_is a) db
  end.
Proof.
  revert db; induction ups as [|[a' [d' s']] ups IH]; intros db; [reflexivity|].
  cbv zeta in *. cbn [map fold_left]. rewrite last_supply_cons.
  specialize (IH (apply_stmt (UpsertAsset a' d' (as_i64 s')) db)).
  destruct (last_supply ups a) as [[d s]|]; [exact IH|].
  rewrite IH. simpl fst. simpl snd. case_bool_decide as Ha.
  - subst a'. apply upsert_asset_rows.
  - rewrite stmt_keeps_apply.
    + unfold inserted_rows. simpl. apply app_nil_r.
    + intros d s. simpl. apply bool_decide_eq_false_2. exact Ha.
Qed.

(** X7: after a successful [commit_block], an asset named in the block's
    supply updates has rows in the assets table, all holding the denom and
    supply of its last update; the rows of any other asset are unchanged. *)
Theorem commit_block_assets (env : Env) (N : nat) (block : PendingBlock)
    (w w' : World) (h : Hash) :
  commit_block env N block w = (Ok h, w') ->
  forall a,
  match last_supply (supply_updates block) a with
  | Some (d, s) =>
      List.filter (asset_id_is a) (committed w') <> [] /\
      Forall (fun r => r = RAsset a d (as_i64 s)) (List.filter (asset_id_is a) (committed w'))
  | None => List.filter (asset_id_is a) (committed w') = List.filter (asset_id_is a) (committed w)
  end.
Proof.
  intros Hrun a.
  apply commit_block_ok_run in Hrun as (ht & e & b & nodes & _ & _ & _ & _ & _ & Hr & _).
  apply run_stmts_fold in Hr. rewrite Hr. unfold block_stmts. rewrite !fold_left_app.
  do 2 (rewrite fold_keeps_same by keeps_tac).
  match goal with |- context [fold_left ?f (map ?g (supply_updates block)) ?Y] =>
    pose proof (fold_upsert_assets (supply_updates block) a Y) as HA end.
  cbv zeta in HA. destruct (last_supply (supply_updates block) a) as [[d s]|].
  - exact HA.
  - rewrite HA. repeat (rewrite fold_keeps_same by keeps_tac). reflexivity.
Qed.

Lemma last_power_cons s sts ik :
  last_power (s :: sts) ik =
  match last_power sts ik with
  | Some y => Some y
  | None => if bool_decide (vs_identity_key s = ik) then Some (as_i64 (voting_power s)) else None
  end.
Proof.
  unfold last_power. simpl. case_bool_decide; simpl.
  - rewrite last_cons. destruct (last _); reflexivity.
  - destruct (last _); reflexivity.
Qed.

Lemma fold_voting_powers sts db :
  List.filter is_validator_row
    (fold_left (fun db q => apply_stmt q db)
       (map (fun status => UpdateVotingPower (as_i64 (voting_power status)) (vs_identity_key status)) sts)
       db) =
  map (set_last_power sts) (List.filter is_validator_row db).
Proof.
  revert db; induction sts as [|s sts IH]; intros db.
  - simpl. rewrite <- (map_id (List.filter is_validator_row db)) at 1.
    apply map_ext. intros r. destruct r; reflexivity.
  - cbn [map fold_left]. rewrite IH. simpl apply_stmt.
    rewrite filter_map_commute.
    + rewrite map_map. apply map_ext. intros r.
      destruct r as [| |ik ck sn n ws d pw st ue| | | | | | | |]; try reflexivity.
      simpl. rewrite last_power_cons.
      destruct (last_power sts ik) as [p|] eqn:Ep;
        repeat case_bool_decide; subst; simpl; rewrite ?Ep; try congruence; reflexivity.
    + intros r. destruct r; try reflexivity. simpl. case_bool_decide; reflexivity.
Qed.

(** X8: after a successful [commit_block], the validators table keeps its
    rows in order; when the block carries validator statuses, each row takes
    the voting power of the last status for its identity key (rows with no
    status keep theirs), and without statuses nothing changes. *)
Theorem commit_block_voting_powers (env : Env) (N : nat) (block : PendingBlock)
    (w w' : World) (h : Hash) :
  commit_block env N block w = (Ok h, w') ->
  List.filter is_validator_row (committed w') =
  match next_validator_statuses block with
  | Some sts => map (set_last_power sts) (List.filter is_validator_row (committed w))
  | None => List.filter is_validator_row (committed w)
  end.
Proof.
  intros Hrun.
  apply commit_block_ok_run in Hrun as (ht & e & b & nodes & _ & _ & _ & _ & _ & Hr & _).
  apply run_stmts_fold in Hr. rewrite Hr. unfold block_stmts. rewrite !fold_left_app.
  destruct (next_validator_statuses block) as [sts|].
  - rewrite fold_voting_powers. repeat (rewrite fold_keeps_same by keeps_tac). reflexivity.
  - repeat (rewrite fold_keeps_same by keeps_tac). reflexivity.
Qed.

(** X11: [commit_block] never succeeds for a block whose height is at
    least [2^63]; it either leaves the state unchanged or, once the
    transaction has committed, panics on the height conversion without
    publishing the height, anchors or next rates. *)
Theorem commit_block_height_overflow (env : Env) (N : nat) (block : PendingBlock)
    (w : World) (ht : Z) :
  height block = Some ht -> (2 ^ 63 <= ht)%Z ->
  let '(o, w') := commit_block env N block w in
  (forall h, o <> Ok h) /\
  (w' = w \/
   (o = Panic "called `Result::unwrap()` on an `Err` value"%string /\
    trace w' = trace w ++ [Committed] /\
    height_ch w' = height_ch w /\ valid_anchors_ch w' = valid_anchors_ch w /\
    next_rate_data_ch w' = next_rate_data_ch w)).
Proof.
  intros Hh Hbig.
  assert (Hn : height_try_into ht = None).
  { unfold height_try_into. destruct (Z.ltb_spec ht (2 ^ 63)); [lia|reflexivity]. }
  unfold commit_block. cbv beta zeta. rewrite Hh. run_ro.
  all: try (split; [intros ? ?; discriminate|left; reflexivity]).
  rewrite bind_commit. destruct (commit_fails _ _).
  { split; [intros ? ?; discriminate|left; reflexivity]. }
  match goal with E : fst (expect _ (Some ht) _) = Ok ?x |- _ =>
    simpl in E; injection E as E; subst x end.
  rewrite Hn. run_sends. split; [intros ? ?; discriminate|right].
  repeat split.
Qed.

Lemma genesis_validators_rows env vps :
  forall dbtx nrd w dbtx' nrd',
  fst (genesis_validators env vps dbtx nrd w) = Ok (dbtx', nrd') ->
  dbtx' = dbtx ++ flat_map genesis_validator_rows vps.
Proof.
  induction vps as [|vp vps IH]; intros dbtx nrd w dbtx' nrd' H;
    cbn [genesis_validators] in H.
  - injection H as <- <-. rewrite app_nil_r. reflexivity.
  - apply bind_ok_inv in H as (d1 & H1 & H); [|apply ro_exec].
    apply bind_ok_inv in H as (d2 & H2 & H); [|apply ro_exec_each].
    apply bind_ok_inv in H as (d3 & H3 & H); [|apply ro_exec_each].
    apply exec_ok in H1 as [-> _].
    apply exec_each_ok in H2 as ->. apply exec_each_ok in H3 as ->.
    rewrite (fold_apply_inserts_eq _
               (fun '(address, rate_bps) =>
                  RFundingStream (identity_key (validator vp)) address rate_bps)) in H
      by (intros [? ?]; reflexivity).
    rewrite (fold_apply_inserts_eq _
               (fun epoch => RValidatorRate (identity_key (validator vp)) epoch 0 one_e8))
      in H by reflexivity.
    apply IH in H as ->. simpl. rewrite <- !app_assoc. reflexivity.
Qed.

(** X12: a successful [commit_genesis] appends to the store exactly the
    [gc] blob of the serialized config, the base-rate rows of epochs 0 and
    1, and for each genesis validator in order its validators row (active,
    with its voting power), its funding-stream rows and its validator-rate
    rows of epochs 0 and 1. *)
Theorem commit_genesis_rows (env : Env) (g : AppState) (w w' : World) :
  commit_genesis env g w = (Ok tt, w') ->
  exists b, serialize_genesis env g = Some b /\
  committed w' = committed w ++ RBlob "gc"%string b :: RBaseRate 0 0 one_e8 ::
                   RBaseRate 1 0 one_e8 :: flat_map genesis_validator_rows (validators g).
Proof.
  unfold commit_genesis. cbv beta zeta. run_ro.
  all: try (intros H; discriminate).
  rewrite bind_commit. destruct (commit_fails _ _); [intros H; discriminate|].
  unfold mbind, M_bind, send_chain_params, send_next_rate_data. simpl.
  intros H. injection H as <-. simpl.
  match goal with E : fst (genesis_validators _ _ _ _ _) = Ok _ |- _ =>
    apply genesis_validators_rows in E as -> end.
  match goal with E : fst (of_option _ _ _) = Ok ?b |- _ => rename b into gb; rename E into Eg end.
  exists gb. split.
  { destruct (serialize_genesis env g); simpl in Eg; congruence. }
  repeat match goal with
  | E : fst (begin _ _) = Ok _ |- _ => apply begin_ok in E; subst
  | E : fst (exec _ _ _ _) = Ok _ |- _ => apply exec_ok in E as [E _]; subst
  | E : fst (exec_each _ _ _ _ _) = Ok _ |- _ => apply exec_each_ok in E; subst
  end.
  simpl. rewrite <- !app_assoc. reflexivity.
Qed.

Lemma genesis_validators_no_panic env vps :
  forall dbtx nrd w s, fst (genesis_validators env vps dbtx nrd w) <> Panic s.
Proof.
  induction vps as [|vp vps IH]; intros dbtx nrd w s; cbn [genesis_validators];
    [discriminate|].
  rewrite (bind_ro _ _ _ (ro_exec _ _ _)).
  pose proof (fun s' => exec_no_panic env
    (Insert (RValidator (identity_key (validator vp)) (consensus_key (validator vp))
       (as_i64 (sequence_number (validator vp))) (name (validator vp))
       (website (validator vp)) (description (validator vp))
       (as_i64 (power vp)) Active None)) dbtx w s') as H1.
  destruct (fst (exec _ _ _ _)) as [d1| |]; [|discriminate|intros _; eapply H1; reflexivity].
  rewrite (bind_ro _ _ _ (ro_exec_each _ _ _ _)).
  pose proof (fun s' => exec_each_no_panic env
    (fun '(address, rate_bps) => Insert (RFundingStream (identity_key (validator vp)) address rate_bps))
    (funding_streams (validator vp)) d1 w s') as H2.
  destruct (fst (exec_each _ _ _ _ _)) as [d2| |]; [|discriminate|intros _; eapply H2; reflexivity].
  rewrite (bind_ro _ _ _ (ro_exec_each _ _ _ _)).
  pose proof (fun s' => exec_each_no_panic env
    (fun epoch => Insert (RValidatorRate (identity_key (validator vp)) epoch 0 one_e8))
    [0%Z; 1%Z] d2 w s') as H3.
  destruct (fst (exec_each _ _ _ _ _)) as [d3| |]; [apply IH|discriminate|intros _; eapply H3; reflexivity].
Qed.

(** X13: [commit_genesis] never panics; when it fails it leaves the state
    unchanged, and when it succeeds it publishes the config's chain params,
    leaves the height and anchors channels as they were, and records the
    commit before the two publications. *)
Theorem commit_genesis_atomic (env : Env) (g : AppState) (w : World) :
  let '(o, w') := commit_genesis env g w in
  (forall s, o <> Panic s) /\
  (forall e, o = Err e -> w' = w) /\
  (o = Ok tt ->
   chain_params_ch w' = chain_params g /\ height_ch w' = height_ch w /\
   valid_anchors_ch w' = valid_anchors_ch w /\
   trace w' = trace w ++ [Committed; Sent ChainParamsCh; Sent NextRateDataCh]).
Proof.
  unfold commit_genesis. cbv beta zeta. run_ro.
  all: try (exfalso; match goal with E : fst _ = Panic _ |- _ => revert E; first
    [apply begin_no_panic|apply of_option_no_panic|apply exec_no_panic
    |apply exec_each_no_panic|apply genesis_validators_no_panic] end).
  all: try (split; [intros ? ?; discriminate|split; [intros; reflexivity|intros; discriminate]]).
  rewrite bind_commit. destruct (commit_fails _ _).
  { split; [intros ? ?; discriminate|split; [intros; reflexivity|intros; discriminate]]. }
  unfold mbind, M_bind, send_chain_params, send_next_rate_data. simpl.
  split; [intros ? ?; discriminate|split; [intros; discriminate|intros _]].
  rewrite <- !app_assoc. repeat split.
Qed.

(** X14: [init_caches] publishes the chain params of the stored genesis
    config, the stored height, next rate data and recent anchors, in this
    order and without touching the store, when all four queries return a
    value; when any query fails it returns the database error and changes
    nothing. *)
Theorem init_caches_spec (r : Reader) (N : nat) (w : World) :
  let '(o, w') := init_caches r N w in
  match reader_genesis_configuration r (committed w), reader_height r (committed w),
        reader_next_rate_data r (committed w), reader_recent_anchors r N (committed w) with
  | Some gc, Some ht, Some nrd, Some va =>
      o = Ok tt /\
      w' = {| committed := committed w; chain_params_ch := chain_params gc;
              height_ch := ht; next_rate_data_ch := nrd; valid_anchors_ch := va;
              trace := trace w ++ [Sent ChainParamsCh; Sent HeightCh;
                                   Sent NextRateDataCh; Sent ValidAnchorsCh] |}
  | _, _, _, _ => o = Err (Db OtherDbError) /\ w' = w
  end.
Proof.
  unfold init_caches, query, mbind, M_bind, mret, M_ret,
    send_chain_params, send_height, send_next_rate_data, send_valid_anchors.
  destruct (reader_genesis_configuration r (committed w)); simpl; [|split; reflexivity].
  destruct (reader_height r (committed w)); simpl; [|split; reflexivity].
  destruct (reader_next_rate_data r (committed w)); simpl; [|split; reflexivity].
  destruct (reader_recent_anchors r N (committed w)); simpl; [|split; reflexivity].
  rewrite <- !app_assoc. split; reflexivity.
Qed.

Lemma commit_block_ledger_rows_witness :
  let w' := snd (commit_block healthy_env 2 block_full genesis_world) in
  commit_block healthy_env 2 block_full genesis_world = (Ok 1005, w') /\
  height block_full = Some 2%Z /\
  (List.filter is_block_row (committed w') =
     List.filter is_block_row (committed genesis_world) ++
       [RBlock (as_i64 2) (root2 healthy_env (note_commitment_tree block_full)) 1005] /\
   List.filter is_note_row (committed w') =
     List.filter is_note_row (committed genesis_world) ++ map (note_row 2) (notes block_full) /\
   List.filter is_nullifier_row (committed w') =
     List.filter is_nullifier_row (committed genesis_world) ++
       map (nullifier_row 2) (spent_nullifiers block_full)).
Proof.
  intros w'.
  assert (Hrun : commit_block healthy_env 2 block_full genesis_world = (Ok 1005, w'))
    by reflexivity.
  split; [exact Hrun|split; [reflexivity|]].
  exact (commit_block_ledger_rows healthy_env 2 block_full genesis_world w' 1005 2 Hrun eq_refl).
Defined.

Lemma commit_block_delegation_rows_witness :
  let w' := snd (commit_block healthy_env 2 block_full genesis_world) in
  commit_block healthy_env 2 block_full genesis_world = (Ok 1005, w') /\
  epoch block_full = Some {| index := 1 |} /\
  List.filter is_delegation_change_row (committed w') =
    List.filter is_delegation_change_row (committed genesis_world) ++
      map (delegation_change_row 1) (delegation_changes block_full).
Proof.
  intros w'.
  assert (Hrun : commit_block healthy_env 2 block_full genesis_world = (Ok 1005, w'))
    by reflexivity.
  split; [exact Hrun|split; [reflexivity|]].
  exact (commit_block_delegation_rows healthy_env 2 block_full genesis_world w' 1005
           {| index := 1 |} Hrun eq_refl).
Defined.

Lemma commit_block_nullifiers_fresh_witness :
  let w' := snd (commit_block healthy_env 2 block_full genesis_world) in
  commit_block healthy_env 2 block_full genesis_world = (Ok 1005, w') /\
  (NoDup (spent_nullifiers block_full) /\
   forall nf hgt, nf ∈ spent_nullifiers block_full -> RNullifier nf hgt ∉ committed genesis_world).
Proof.
  intros w'.
  assert (Hrun : commit_block healthy_env 2 block_full genesis_world = (Ok 1005, w'))
    by reflexivity.
  split; [exact Hrun|].
  exact (commit_block_nullifiers_fresh healthy_env 2 block_full genesis_world w' 1005 Hrun).
Defined.

Lemma commit_block_nct_blob_witness :
  let w' := snd (commit_block healthy_env 2 block_full genesis_world) in
  commit_block healthy_env 2 block_full genesis_world = (Ok 1005, w') /\
  exists b, serialize_nct healthy_env (note_commitment_tree block_full) = Some b /\
  List.filter (blob_id_is "nct") (committed w') <> [] /\
  Forall (fun r => r = RBlob "nct" b) (List.filter (blob_id_is "nct") (committed w')) /\
  forall id, id <> "nct"%string ->
    List.filter (blob_id_is id) (committed w') =
    List.filter (blob_id_is id) (committed genesis_world).
Proof.
  intros w'.
  assert (Hrun : commit_block healthy_env 2 block_full genesis_world = (Ok 1005, w'))
    by reflexivity.
  split; [exact Hrun|].
  exact (commit_block_nct_blob healthy_env 2 block_full genesis_world w' 1005 Hrun).
Defined.

Lemma commit_block_assets_witness :
  let w' := snd (commit_block healthy_env 2 block_full genesis_world) in
  commit_block healthy_env 2 block_full genesis_world = (Ok 1005, w') /\
  forall a,
  match last_supply (supply_updates block_full) a with
  | Some (d, s) =>
      List.filter (asset_id_is a) (committed w') <> [] /\
      Forall (fun r => r = RAsset a d (as_i64 s)) (List.filter (asset_id_is a) (committed w'))
  | None => List.filter (asset_id_is a) (committed w') =
            List.filter (asset_id_is a) (committed genesis_world)
  end.
Proof.
  intros w'.
  assert (Hrun : commit_block healthy_env 2 block_full genesis_world = (Ok 1005, w'))
    by reflexivity.
  split; [exact Hrun|].
  exact (commit_block_assets healthy_env 2 block_full genesis_world w' 1005 Hrun).
Defined.

Lemma commit_block_voting_powers_witness :
  let w' := snd (commit_block healthy_env 2 block_full genesis_world) in
  commit_block healthy_env 2 block_full genesis_world = (Ok 1005, w') /\
  List.filter is_validator_row (committed w') =
  match next_validator_statuses block_full with
  | Some sts => map (set_last_power sts) (List.filter is_validator_row (committed genesis_world))
  | None => List.filter is_validator_row (committed genesis_world)
  end.
Proof.
  intros w'.
  assert (Hrun : commit_block healthy_env 2 block_full genesis_world = (Ok 1005, w'))
    by reflexivity.
  split; [exact Hrun|].
  exact (commit_block_voting_powers healthy_env 2 block_full genesis_world w' 1005 Hrun).
Defined.

Lemma commit_block_channels_witness :
  let w' := snd (commit_block healthy_env 2 block_full genesis_world) in
  commit_block healthy_env 2 block_full genesis_world = (Ok 1005, w') /\
  (chain_params_ch w' = chain_params_ch genesis_world /\
   height block_full = Some (height_ch w') /\
   (forall ik, next_rate_data_ch w' !! ik =
      match next_rates block_full with
      | Some rs => last_rate rs ik
      | None => next_rate_data_ch genesis_world !! ik
      end) /\
   trace w' = trace genesis_world ++ Committed :: Sent HeightCh :: Sent ValidAnchorsCh ::
     match next_rates block_full with Some _ => [Sent NextRateDataCh] | None => [] end).
Proof.
  intros w'.
  assert (Hrun : commit_block healthy_env 2 block_full genesis_world = (Ok 1005, w'))
    by reflexivity.
  split; [exact Hrun|].
  exact (commit_block_channels healthy_env 2 block_full genesis_world w' 1005 Hrun).
Defined.

Lemma commit_block_app_hash_witness :
  let w' := snd (commit_block healthy_env 2 block_full genesis_world) in
  commit_block healthy_env 2 block_full genesis_world = (Ok 1005, w') /\
  exists ht nodes, height block_full = Some ht /\ (ht < 2 ^ 63)%Z /\
    jmt_put_value_set healthy_env (committed genesis_world)
      (root2 healthy_env (note_commitment_tree block_full)) ht = Some (1005, nodes) /\
    ((0 <= ht)%Z -> as_i64 ht = ht).
Proof.
  intros w'.
  assert (Hrun : commit_block healthy_env 2 block_full genesis_world = (Ok 1005, w'))
    by reflexivity.
  split; [exact Hrun|].
  exact (commit_block_app_hash healthy_env 2 block_full genesis_world w' 1005 Hrun).
Defined.

Lemma commit_block_height_overflow_witness :
  height (block_ex (2 ^ 63)) = Some (2 ^ 63)%Z /\ (2 ^ 63 <= 2 ^ 63)%Z /\
  let '(o, w') := commit_block healthy_env 2 (block_ex (2 ^ 63)) world0 in
  (forall h, o <> Ok h) /\
  (w' = world0 \/
   (o = Panic "called `Result::unwrap()` on an `Err` value"%string /\
    trace w' = trace world0 ++ [Committed] /\
    height_ch w' = height_ch world0 /\ valid_anchors_ch w' = valid_anchors_ch world0 /\
    next_rate_data_ch w' = next_rate_data_ch world0)).
Proof.
  split; [reflexivity|split; [lia|]].
  exact (commit_block_height_overflow healthy_env 2 (block_ex (2 ^ 63)) world0 (2 ^ 63)
           eq_refl (Z.le_refl _)).
Defined.

Lemma commit_genesis_rows_witness :
  let w' := snd (commit_genesis healthy_env genesis_ex world0) in
  commit_genesis healthy_env genesis_ex world0 = (Ok tt, w') /\
  exists b, serialize_genesis healthy_env genesis_ex = Some b /\
  committed w' = committed world0 ++ RBlob "gc"%string b :: RBaseRate 0 0 one_e8 ::
                   RBaseRate 1 0 one_e8 :: flat_map genesis_validator_rows (validators genesis_ex).
Proof.
  intros w'.
  assert (Hrun : commit_genesis healthy_env genesis_ex world0 = (Ok tt, w'))
    by reflexivity.
  split; [exact Hrun|].
  exact (commit_genesis_rows healthy_env genesis_ex world0 w' Hrun).
Defined.

End WriterProofs.
